(** * check_translations.py: a verification development

    The script [frontend/src/utils/locales/check_translations.py] reads the
    reference locale [en.ts], collects the keys declared in it, and reports,
    for every other [*.ts] file of the directory, the reference keys that the
    file does not declare.

    The development embeds the script in Rocq:
    - Python strings are lists of code points ([N]);
    - Python sets of strings are [gset]s, the insertion-ordered dictionary
      [missing_report] is an association list;
    - the regular expression is the opcode sequence that [re] compiles it to,
      run by a backtracking matcher;
    - file access, directory listing and printing live in a small
      state-and-exception monad over a read-only file system, a standard
      output buffer and a log of the system calls made. *)

From Stdlib Require Import NArith Ascii String.
From stdpp Require Import base decidable option list sorting gmap sets strings pretty.

Local Open Scope N_scope.

(** ** Python strings *)

(** A [str] is a sequence of Unicode code points. *)
Abbreviation char := N (only parsing).
Abbreviation str := (list N) (only parsing).

(** String literals of the source; all of them are ASCII. *)
Definition lit (s : string) : str := N_of_ascii <$> list_ascii_of_string s.
Arguments lit : simpl never.

(** [str.endswith]: the last [len(suffix)] characters are compared. *)
Definition endswith (s suffix : str) : bool :=
  bool_decide (length suffix ≤ length s)%nat
  && bool_decide (drop (length s - length suffix)%nat s = suffix).

(** Comparison of strings, as [sorted] uses it: code point by code point,
    a proper prefix being smaller. *)
Fixpoint str_leb (a b : str) : bool :=
  match a, b with
  | [], _ => true
  | _ :: _, [] => false
  | x :: a', y :: b' => if x <? y then true else if y <? x then false else str_leb a' b'
  end.
Definition str_le (a b : str) : Prop := str_leb a b = true.
Definition str_lt (a b : str) : Prop := str_le a b ∧ a ≠ b.

#[global] Instance str_le_dec : RelDecision str_le.
Proof. intros a b. unfold str_le. apply _. Defined.

(** ** Character classes of [re] on [str] patterns *)

(** The white space of [\s] on [str] patterns is CPython's
    [Py_UNICODE_ISSPACE]: TAB, LF, VT, FF, CR, FS, GS, RS, US and the blank
    in ASCII, and the white space of the Unicode database beyond. *)
Definition uni_isspace (c : char) : bool :=
  (9 <=? c) && (c <=? 13) || (28 <=? c) && (c <=? 32)
  || (c =? 0x85) || (c =? 0xA0) || (c =? 0x1680)
  || (0x2000 <=? c) && (c <=? 0x200A)
  || (c =? 0x2028) || (c =? 0x2029) || (c =? 0x202F) || (c =? 0x205F)
  || (c =? 0x3000).

Definition ascii_isalnum (c : char) : bool :=
  (48 <=? c) && (c <=? 57) || (65 <=? c) && (c <=? 90) || (97 <=? c) && (c <=? 122).

(** The alphanumeric code points beyond ASCII come from the Unicode
    character database, which the script does not contain: it is a
    parameter.  No white space character of the database is alphanumeric. *)
Record UnicodeDB := {
  uni_isalnum : char → bool;
  uni_alnum_not_space : ∀ c, uni_isalnum c = true → uni_isspace c = false
}.

(** [\w]: alphanumeric or the underscore. *)
Definition uni_isword (db : UnicodeDB) (c : char) : bool :=
  (if c <? 128 then ascii_isalnum c else uni_isalnum db c) || (c =? 95).

(** The database with no alphanumeric character beyond ASCII. *)
Program Definition ascii_db : UnicodeDB := {| uni_isalnum := λ _, false |}.
Next Obligation. done. Qed.

(** ** The regular expression engine *)

(** The opcodes that [r'^\s*(\w+):'] compiles to.  A repeat has a
    single-character body and no upper bound; [MARK] [2g-2] and [2g-1]
    delimit group [g]. *)
Inductive sre_op :=
  | AT_BEGINNING
  | LITERAL (c : char)
  | MAX_REPEAT (min : nat) (cls : char → bool)
  | MARK (i : nat).

Abbreviation marks := (gmap nat nat) (only parsing).

(** Number of leading characters of [s] in [cls]. *)
Fixpoint sre_count (cls : char → bool) (s : str) : nat :=
  match s with
  | c :: s' => if cls c then S (sre_count cls s') else O
  | [] => O
  end.

(** A greedy repeat took [n] characters; on failure of the tail it gives
    them back one at a time, down to [mn]. *)
Fixpoint backtrack {A} (tail : nat → option A) (mn n : nat) : option A :=
  match tail n with
  | Some r => Some r
  | None =>
      match n with
      | S n' => if decide (mn ≤ n')%nat then backtrack tail mn n' else None
      | O => None
      end
  end.

(** Match [code] against [s] at [pos]; the result is the end position and
    the marks. *)
Fixpoint sre_match (code : list sre_op) (s : str) (pos : nat) (m : marks)
  : option (nat * marks) :=
  match code with
  | [] => Some (pos, m)
  | AT_BEGINNING :: code' =>
      if decide (pos = 0)%nat then sre_match code' s pos m else None
  | LITERAL c :: code' =>
      match s !! pos with
      | Some x => if decide (x = c) then sre_match code' s (S pos) m else None
      | None => None
      end
  | MAX_REPEAT mn cls :: code' =>
      let count := sre_count cls (drop pos s) in
      if decide (mn ≤ count)%nat
      then backtrack (λ n, sre_match code' s (pos + n)%nat m) mn count
      else None
  | MARK i :: code' => sre_match code' s pos (<[i:=pos]> m)
  end.

(** [re.search]: the first start position, from the left, with a match. *)
Fixpoint sre_search (code : list sre_op) (s : str) (pos fuel : nat)
  : option (nat * marks) :=
  match sre_match code s pos ∅ with
  | Some r => Some r
  | None =>
      match fuel with
      | S fuel' => sre_search code s (S pos) fuel'
      | O => None
      end
  end.

(** A match object: the subject and the marks. *)
Record Match := { m_string : str; m_end : nat; m_marks : marks }.

Definition re_search (code : list sre_op) (s : str) : option Match :=
  match sre_search code s 0 (length s) with
  | Some (e, m) => Some {| m_string := s; m_end := e; m_marks := m |}
  | None => None
  end.

(** [match.group(g)] for a group that took part in the match. *)
Definition group (mo : Match) (g : nat) : str :=
  match m_marks mo !! (2 * g - 2)%nat, m_marks mo !! (2 * g - 1)%nat with
  | Some b, Some e => take (e - b) (drop b (m_string mo))
  | _, _ => []
  end.

(** ** Reading a text file line by line *)

(** Universal newlines: CR LF and CR are read as LF. *)
Fixpoint translate_newlines (s : str) : str :=
  match s with
  | [] => []
  | c :: s' =>
      if c =? 13 then
        match s' with
        | c' :: s'' => if c' =? 10 then 10 :: translate_newlines s''
                       else 10 :: translate_newlines s'
        | [] => [10]
        end
      else c :: translate_newlines s'
  end.

(** The lines of a text, each with its line feed; the last line may lack
    one. [cur] is the line being read. *)
Fixpoint split_lines (cur : str) (s : str) : list str :=
  match s with
  | [] => if decide (cur = []) then [] else [cur]
  | c :: s' =>
      if c =? 10 then (cur ++ [c]) :: split_lines [] s'
      else split_lines (cur ++ [c]) s'
  end.

Definition file_lines (text : str) : list str :=
  split_lines [] (translate_newlines text).

(** ** The script: key extraction *)

Section Script.
Context (db : UnicodeDB).

(** [r'^\s*(\w+):'] *)
Definition KEY_RE : list sre_op :=
  [AT_BEGINNING; MAX_REPEAT 0 uni_isspace;
   MARK 0; MAX_REPEAT 1 (uni_isword db); MARK 1; LITERAL 58].

(** The part of the pattern after the white space, tried at [n]. *)
Definition after_space (line : str) (n : nat) : option (nat * gmap nat nat) :=
  sre_match (drop 2 KEY_RE) line n ∅.

(** The body of the [for line in f] loop. *)
Definition extract_line (keys : gset str) (line : str) : gset str :=
  match re_search KEY_RE line with
  | Some mo => {[ group mo 1 ]} ∪ keys
  | None => keys
  end.

(** [extract_keys] on the text of an opened file. *)
Definition extract_keys_text (text : str) : gset str :=
  foldl extract_line ∅ (file_lines text).

End Script.

(** ** Sets and dictionaries *)

(** The order in which a [set] of strings is iterated depends on the hash
    seed of the interpreter and on the history of the set: it is a
    parameter, some enumeration of the elements without repetition. *)
Record SetOrder := {
  set_iter : gset str → list str;
  set_iter_perm : ∀ s, set_iter s ≡ₚ elements s
}.

Definition elements_order : SetOrder :=
  {| set_iter := elements; set_iter_perm := λ _, reflexivity _ |}.

(** [sorted(s)]: the elements are listed in iteration order and sorted
    by a stable comparison sort. *)
Definition sorted (ord : SetOrder) (s : gset str) : list str :=
  merge_sort str_le (set_iter ord s).

(** A [dict] keeps its keys in insertion order; assigning to a key that is
    present replaces the value where it stands. *)
Abbreviation dict := (list (str * gset str)) (only parsing).

Fixpoint dict_set (d : dict) (k : str) (v : gset str) : dict :=
  match d with
  | [] => [(k, v)]
  | (k', v') :: d' =>
      if decide (k' = k) then (k, v) :: d' else (k', v') :: dict_set d' k v
  end.

Fixpoint dict_get (d : dict) (k : str) : option (gset str) :=
  match d with
  | [] => None
  | (k', v') :: d' => if decide (k' = k) then Some v' else dict_get d' k
  end.

(** ** The operating system *)

Inductive exn :=
  | OSError (errno : nat)
  | UnicodeDecodeError.

(** What the script sees of the file system, which no step of the script
    changes: the decoded text of a file opened for reading, the names in a
    directory in the order [os.listdir] gives them, or the exception. *)
Record filesystem := {
  fs_read : str → exn + str;
  fs_listdir : str → exn + list str
}.

Inductive syscall :=
  | SysOpen (path : str)
  | SysListdir (path : str).

Record world := { stdout : str; calls : list syscall }.

Definition world0 : world := {| stdout := []; calls := [] |}.

(** A computation either raises ([inl]) or returns ([inr]), and leaves a
    world behind. *)
Definition io (A : Type) : Type := world → (exn + A) * world.

#[global] Instance io_ret : MRet io := λ A x w, (inr x, w).
#[global] Instance io_bind : MBind io := λ A B f m w,
  match m w with
  | (inl e, w') => (inl e, w')
  | (inr x, w') => f x w'
  end.

Definition print (s : str) : io unit := λ w,
  (inr (), {| stdout := stdout w ++ s ++ [10]; calls := calls w |}).

Definition syscall_result {A} (c : syscall) (r : exn + A) : io A := λ w,
  (r, {| stdout := stdout w; calls := calls w ++ [c] |}).

(** [for x in xs: body], threading the variables the body assigns. *)
Fixpoint for_each {A S} (xs : list A) (body : A → S → io S) (s : S) : io S :=
  match xs with
  | [] => mret s
  | x :: xs' => s' ← body x s; for_each xs' body s'
  end.

(** [os.path.join] of two components, on POSIX. *)
Definition path_join (a b : str) : str :=
  match b with
  | 47 :: _ => b
  | _ => if bool_decide (a = []) || endswith a [47] then a ++ b else a ++ [47] ++ b
  end.

(** ** The script *)

Definition locales_dir : str := lit "../locales".
Definition en_file : str := path_join locales_dir (lit "en.ts").

(** The module-level variables that the loops read and assign. *)
Record vars := { en_keys : gset str; missing_report : dict }.

Section Program.
Context (db : UnicodeDB) (ord : SetOrder) (fs : filesystem).

Definition open_read (file_path : str) : io str :=
  syscall_result (SysOpen file_path) (fs_read fs file_path).

Definition os_listdir (path : str) : io (list str) :=
  syscall_result (SysListdir path) (fs_listdir fs path).

Definition extract_keys (file_path : str) : io (gset str) :=
  text ← open_read file_path;
  mret (extract_keys_text db text).

Definition found_line (n : nat) : str :=
  lit "Found " ++ lit (pretty n) ++ lit " keys in en.ts".

(** The guard of the first loop: the entries it passes over. *)
Definition skipped (filename : str) : bool :=
  bool_decide (filename = lit "en.ts") || negb (endswith filename (lit ".ts")).

(** The body of [for filename in os.listdir(locales_dir)]. *)
Definition scan_body (filename : str) (v : vars) : io vars :=
  if skipped filename then mret v
  else
    let file_path := path_join locales_dir filename in
    keys ← extract_keys file_path;
    let missing := en_keys v ∖ keys in
    if bool_decide (missing ≠ ∅)
    then mret {| en_keys := en_keys v;
                 missing_report := dict_set (missing_report v) filename missing |}
    else mret v.

(** The body of [for filename, missing in missing_report.items()]. *)
Definition report_body (item : str * gset str) (u : unit) : io unit :=
  print ([10] ++ lit "Missing keys in " ++ item.1 ++ lit ":");;
  for_each (sorted ord item.2) (λ key _, print (lit " - " ++ key)) ().

Definition render (report : dict) : io unit :=
  if bool_decide (report = [])
  then print (lit "All good! No missing keys found.")
  else for_each report report_body ().

(** The module body; it returns the variables for inspection. *)
Definition main : io vars :=
  keys ← extract_keys en_file;
  let v := {| en_keys := keys; missing_report := [] |} in
  print (found_line (size (en_keys v)));;
  names ← os_listdir locales_dir;
  v' ← for_each names scan_body v;
  render (missing_report v');;
  mret v'.

Definition run : (exn + vars) * world := main world0.

End Program.

(** ** The specification of key extraction, in its own words *)

(** Stripping the leading white space of a line. *)
Fixpoint lstrip (s : str) : str :=
  match s with
  | c :: s' => if uni_isspace c then lstrip s' else s
  | [] => []
  end.

(** [w] is a non-empty run of word characters. *)
Definition word_run (db : UnicodeDB) (w : str) : Prop :=
  w ≠ [] ∧ Forall (λ c, uni_isword db c = true) w.

(** The line declares the key [w]: once its leading white space is
    stripped it begins with the word run [w] and a colon follows. *)
Definition declares (db : UnicodeDB) (line w : str) : Prop :=
  word_run db w ∧ ∃ rest, lstrip line = w ++ 58 :: rest.

(** The same as a scanner: the longest run of word characters of the
    stripped line, when it is not empty and a colon follows. *)
Fixpoint take_word (db : UnicodeDB) (s : str) : str * str :=
  match s with
  | c :: s' =>
      if uni_isword db c then let '(w, r) := take_word db s' in (c :: w, r)
      else ([], s)
  | [] => ([], [])
  end.

Definition key_of_line (db : UnicodeDB) (line : str) : option str :=
  match take_word db (lstrip line) with
  | ((_ :: _) as w, 58 :: _) => Some w
  | _ => None
  end.

(** ** The specification of the report, in its own words *)

Section ReportSpec.
Context (db : UnicodeDB) (ord : SetOrder) (fs : filesystem).

(** The path under which the script opens a directory entry. *)
Definition path_of (filename : str) : str := path_join locales_dir filename.

(** Candidate files: the name ends with the suffix and is not the name of
    the reference file. *)
Definition is_candidate (filename : str) : Prop :=
  suffix (lit ".ts") filename ∧ filename ≠ lit "en.ts".

#[global] Instance is_candidate_dec f : Decision (is_candidate f).
Proof. unfold is_candidate. apply _. Defined.

Definition candidates (names : list str) : list str :=
  filter is_candidate names.

(** The key set of a file; a file that cannot be read has none. *)
Definition key_set (filename : str) : option (gset str) :=
  match fs_read fs (path_of filename) with
  | inr text => Some (extract_keys_text db text)
  | inl _ => None
  end.

Definition readable (filename : str) : Prop := is_Some (key_set filename).

#[global] Instance readable_dec f : Decision (readable f).
Proof. unfold readable. apply _. Defined.

(** The missing keys of a file: the reference keys it does not have. *)
Definition missing_keys (reference : gset str) (filename : str) : gset str :=
  reference ∖ default ∅ (key_set filename).

(** Recording a candidate in the report when keys are missing. *)
Definition record_missing (reference : gset str) (report : list (str * gset str))
    (filename : str) : list (str * gset str) :=
  if decide (missing_keys reference filename = ∅) then report
  else dict_set report filename (missing_keys reference filename).

Definition build_report (reference : gset str) (names : list str)
  : list (str * gset str) :=
  foldl (record_missing reference) [] (candidates names).

(** The text printed for one file of the report: a blank line, the
    header, one line per key in ascending order. *)
Definition key_line (key : str) : str := lit " - " ++ key ++ [10].

Definition section_text (item : str * gset str) : str :=
  [10] ++ lit "Missing keys in " ++ item.1 ++ lit ":" ++ [10]
  ++ concat (key_line <$> sorted ord item.2).

Definition all_good_text : str := lit "All good! No missing keys found." ++ [10].

Definition report_text (report : list (str * gset str)) : str :=
  match report with
  | [] => all_good_text
  | _ => concat (section_text <$> report)
  end.

Definition found_text (reference : gset str) : str :=
  lit "Found " ++ lit (pretty (size reference)) ++ lit " keys in en.ts" ++ [10].

End ReportSpec.

(** The world after some more output and some more calls. *)
Definition extend (w : world) (out : str) (cs : list syscall) : world :=
  {| stdout := stdout w ++ out; calls := calls w ++ cs |}.

(** The exception with which a system call of the log ends, if any. *)
Definition call_error (fs : filesystem) (c : syscall) : option exn :=
  match c with
  | SysOpen p => match fs_read fs p with inl e => Some e | inr _ => None end
  | SysListdir p => match fs_listdir fs p with inl e => Some e | inr _ => None end
  end.

(** ** Kinds of entries *)

(** [open] on a directory raises [IsADirectoryError], which is [OSError]
    with the errno [EISDIR]. *)
Definition EISDIR : nat := 21.

(** A subdirectory, as the script meets one: an entry that [open] refuses
    because it is a directory. *)
Definition is_subdirectory (fs : filesystem) (filename : str) : Prop :=
  fs_read fs (path_of filename) = inl (OSError EISDIR).

(** No subdirectory of the listing is ever opened. *)
Definition skips_subdirectories (db : UnicodeDB) (ord : SetOrder) (fs : filesystem)
  : Prop :=
  ∀ names f,
    fs_listdir fs locales_dir = inr names → f ∈ names → is_subdirectory fs f →
    SysOpen (path_of f) ∉ calls (run db ord fs).2.

(** ** The ways in which a run ends *)

Section RunShape.
Context (db : UnicodeDB) (ord : SetOrder) (fs : filesystem).

(** A run ends in one of four ways. *)
Inductive run_shape : Prop :=
  | shape_reference_fails e :
      fs_read fs en_file = inl e →
      run db ord fs = (inl e, {| stdout := []; calls := [SysOpen en_file] |}) →
      run_shape
  | shape_listdir_fails text e :
      fs_read fs en_file = inr text → fs_listdir fs locales_dir = inl e →
      run db ord fs
      = (inl e, {| stdout := found_text (extract_keys_text db text);
                   calls := [SysOpen en_file; SysListdir locales_dir] |}) →
      run_shape
  | shape_candidate_fails text names1 f names2 e :
      fs_read fs en_file = inr text →
      fs_listdir fs locales_dir = inr (names1 ++ f :: names2) →
      Forall (readable db fs) (candidates names1) →
      is_candidate f → fs_read fs (path_of f) = inl e →
      run db ord fs
      = (inl e, {| stdout := found_text (extract_keys_text db text);
                   calls := [SysOpen en_file; SysListdir locales_dir]
                            ++ (SysOpen ∘ path_of <$> candidates names1)
                            ++ [SysOpen (path_of f)] |}) →
      run_shape
  | shape_ok text names :
      fs_read fs en_file = inr text →
      fs_listdir fs locales_dir = inr names →
      Forall (readable db fs) (candidates names) →
      run db ord fs
      = (inr {| en_keys := extract_keys_text db text;
                missing_report := build_report db fs (extract_keys_text db text) names |},
         {| stdout := found_text (extract_keys_text db text)
                      ++ report_text ord
                           (build_report db fs (extract_keys_text db text) names);
            calls := [SysOpen en_file; SysListdir locales_dir]
                     ++ (SysOpen ∘ path_of <$> candidates names) |}) →
      run_shape.

End RunShape.

(** ** Sample inputs *)

(** A text from its lines, each ended by a line feed. *)
Definition unlines (lines : list string) : str :=
  concat ((λ l, lit l ++ [10]) <$> lines).

(** A file system with the given files, all of them in the directory of
    the locales, whose listing is [listing]; any other access fails with
    [ENOENT]. *)
Definition sample_fs (files : list (string * list string)) (listing : list string)
  : filesystem :=
  {| fs_read := λ p,
       match list_find (λ file, path_of (lit file.1) = p) files with
       | Some (_, file) => inr (unlines file.2)
       | None => inl (OSError 2)
       end;
     fs_listdir := λ p,
       if decide (p = locales_dir) then inr (lit <$> listing) else inl (OSError 2) |}.

Definition example_lines : list string :=
  ["  foo: bar"; "baz: qux"; "not_a_key line"; "  123abc: x"].

(** [de.ts] lacks the key [b], [fr.ts] lacks nothing, [readme.md] has
    lines that look like keys. *)
Definition fs_missing_b : filesystem :=
  sample_fs [("en.ts", ["a: 1"; "b: 2"; "c: 3"]);
             ("fr.ts", ["c: 3"; "  b: 2"; "a: 1"; "extra: 0"]);
             ("de.ts", ["a: 1"; "c: 3"]);
             ("readme.md", ["zzz: not a locale"])]
            ["fr.ts"; "en.ts"; "readme.md"; "de.ts"].

Definition fs_example : filesystem :=
  sample_fs [("en.ts", example_lines)] ["en.ts"].

Definition fs_complete : filesystem :=
  sample_fs [("en.ts", ["a: 1"; "b: 2"; "c: 3"]);
             ("fr.ts", ["c: 3"; "  b: 2"; "a: 1"; "extra: 0"])]
            ["fr.ts"; "en.ts"].

(** The files of [fs_complete], and a subdirectory [sub.ts] between them
    in the listing. *)
Definition fs_subdirectory : filesystem :=
  {| fs_read := λ p,
       if decide (p = path_of (lit "sub.ts")) then inl (OSError EISDIR)
       else fs_read fs_complete p;
     fs_listdir := λ p,
       if decide (p = locales_dir) then inr (lit <$> ["sub.ts"; "fr.ts"; "en.ts"])
       else inl (OSError 2) |}.

Definition fs_sorting : filesystem :=
  sample_fs [("en.ts", ["zeta: 1"; "alpha: 2"; "mu: 3"; "Beta: 4"]);
             ("it.ts", ["Beta: 4"]);
             ("ja.ts", ["verbatim"])]
            ["ja.ts"; "en.ts"; "it.ts"].

Definition fs_empty_reference : filesystem :=
  sample_fs [("en.ts", ["export default {"; "}"]);
             ("fr.ts", ["a: 1"])]
            ["en.ts"; "fr.ts"].

(** The listing names a file, [de.ts], that cannot be opened. *)
Definition fs_unreadable : filesystem :=
  sample_fs [("en.ts", ["a: 1"]); ("fr.ts", ["b: 2"]); ("it.ts", [])]
            ["fr.ts"; "de.ts"; "it.ts"].

(** ** Texts from lines *)

(** A line without its terminator holds neither LF nor CR. *)
Definition plain_line (l : str) : Prop := (10 ∉ l) ∧ (13 ∉ l).

#[global] Instance plain_line_dec l : Decision (plain_line l).
Proof. unfold plain_line. apply _. Defined.

(** The lines, each followed by the line terminator [eol]. *)
Definition join_lines (eol : str) (lines : list str) : str :=
  concat ((λ l, l ++ eol) <$> lines).

(** [fs_missing_b] with another [readme.md] and a file more that the
    listing does not name. *)
Definition fs_missing_b_variant : filesystem :=
  sample_fs [("en.ts", ["a: 1"; "b: 2"; "c: 3"]);
             ("fr.ts", ["c: 3"; "  b: 2"; "a: 1"; "extra: 0"]);
             ("de.ts", ["a: 1"; "c: 3"]);
             ("readme.md", ["a: changed"; "q: new"]);
             ("es.ts", ["z: unlisted"])]
            ["fr.ts"; "en.ts"; "readme.md"; "de.ts"].

(** [ja.ts] is empty. *)
Definition fs_empty_candidate : filesystem :=
  sample_fs [("en.ts", ["a: 1"; "b: 2"]); ("ja.ts", [])] ["ja.ts"; "en.ts"].

(** * Properties *)

(** Case analysis on a character that a [match] compares with the colon. *)
Ltac colon_cases c :=
  let p := fresh "p" in
  destruct c as [|p];
  [|do 6 (destruct p as [p|p|]; try (done || congruence))];
  try (done || congruence).

(** ** Strings *)

Lemma str_leb_refl a : str_leb a a = true.
Proof. induction a as [|x a IH]; simpl; [done|]. by rewrite N.ltb_irrefl. Qed.

#[global] Instance str_le_refl : Reflexive str_le.
Proof. intros a. apply str_leb_refl. Qed.

#[global] Instance str_le_total : Total str_le.
Proof.
  intros a. unfold str_le. induction a as [|x a IH]; intros [|y b]; simpl; auto.
  destruct (N.ltb_spec x y), (N.ltb_spec y x); auto; lia.
Qed.

#[global] Instance str_le_antisymm : AntiSymm (=) str_le.
Proof.
  intros a. unfold str_le. induction a as [|x a IH]; intros [|y b]; simpl; try done.
  destruct (N.ltb_spec x y), (N.ltb_spec y x); try done; try lia.
  intros Hab Hba. assert (x = y) as -> by lia. f_equal. by apply IH.
Qed.

#[global] Instance str_le_trans : Transitive str_le.
Proof.
  intros a. unfold str_le.
  induction a as [|x a IH]; intros [|y b] [|z c]; simpl; try done.
  destruct (N.ltb_spec x y), (N.ltb_spec y x), (N.ltb_spec y z),
    (N.ltb_spec z y), (N.ltb_spec x z), (N.ltb_spec z x);
    try done; try lia.
  apply IH.
Qed.

Lemma endswith_suffix s suf : endswith s suf = true ↔ suffix suf s.
Proof.
  unfold endswith. rewrite andb_true_iff, !bool_decide_eq_true. split.
  - intros [_ Hd]. exists (take (length s - length suf)%nat s).
    rewrite <- Hd at 2. by rewrite take_drop.
  - intros [k ->]. rewrite !length_app. split; [lia|].
    replace (length k + length suf - length suf)%nat with (length k) by lia.
    by rewrite drop_app_length.
Qed.

(** ** Character classes *)

Lemma space_not_word db c : uni_isspace c = true → uni_isword db c = false.
Proof.
  intros Hs. unfold uni_isword.
  destruct (N.ltb_spec c 128) as [Hc|Hc].
  - apply not_true_is_false. intros Hw. revert Hs Hw.
    unfold uni_isspace, ascii_isalnum.
    rewrite !orb_true_iff, !andb_true_iff, !N.leb_le, !N.eqb_eq. lia.
  - destruct (uni_isalnum db c) eqn:Ha.
    + apply uni_alnum_not_space in Ha. congruence.
    + simpl. apply N.eqb_neq. lia.
Qed.

Lemma colon_not_word db : uni_isword db 58 = false.
Proof. done. Qed.

(** ** The matcher on the key pattern *)

Lemma sre_count_le cls s : (sre_count cls s ≤ length s)%nat.
Proof. induction s as [|c s IH]; simpl; [lia|]. destruct (cls c); simpl; lia. Qed.

Lemma sre_count_lookup_lt cls s k :
  (k < sre_count cls s)%nat → ∃ c, s !! k = Some c ∧ cls c = true.
Proof.
  revert k. induction s as [|c s IH]; simpl; intros k Hk; [lia|].
  destruct (cls c) eqn:Hc; [|lia].
  destruct k as [|k]; simpl; [eauto|]. apply IH. lia.
Qed.

Lemma sre_count_stop cls s c :
  s !! 0%nat = Some c → cls c = false → sre_count cls s = 0%nat.
Proof. destruct s as [|x s]; simpl; [done|]. by intros [= ->] ->. Qed.

Lemma lstrip_drop s : lstrip s = drop (sre_count uni_isspace s) s.
Proof. induction s as [|c s IH]; simpl; [done|]. by destruct (uni_isspace c). Qed.

Lemma take_word_count db s :
  take_word db s
  = (take (sre_count (uni_isword db) s) s, drop (sre_count (uni_isword db) s) s).
Proof.
  induction s as [|c s IH]; simpl; [done|].
  destruct (uni_isword db c); simpl; [|done]. by rewrite IH.
Qed.

Lemma take_word_app db w c rest :
  Forall (λ x, uni_isword db x = true) w → uni_isword db c = false →
  take_word db (w ++ c :: rest) = (w, c :: rest).
Proof.
  intros Hw Hc. induction Hw as [|x w Hx _ IH]; simpl.
  - by rewrite Hc.
  - by rewrite Hx, IH.
Qed.

Lemma take_word_spec db s w r :
  take_word db s = (w, r) → s = w ++ r ∧ Forall (λ x, uni_isword db x = true) w.
Proof.
  revert w r. induction s as [|c s IH]; simpl; intros w r.
  - intros [= <- <-]. by split.
  - destruct (uni_isword db c) eqn:Hc.
    + destruct (take_word db s) as [w' r'] eqn:Hs. intros [= <- <-].
      destruct (IH _ _ eq_refl) as [-> Hw]. split; [done|]. by constructor.
    + intros [= <- <-]. by split.
Qed.

(** The scanner and the declarative reading agree. *)
Lemma key_of_line_declares db line w :
  key_of_line db line = Some w ↔ declares db line w.
Proof.
  unfold key_of_line, declares, word_run. split.
  - destruct (take_word db (lstrip line)) as [w' r] eqn:Ht.
    apply take_word_spec in Ht as [Hl Hw].
    destruct w' as [|x w']; [done|]. destruct r as [|c r]; [done|].
    destruct (decide (c = 58)) as [->|Hne].
    + intros [= <-]. split; [done|]. by exists r.
    + intros Hfalse. exfalso. revert Hfalse.
      colon_cases c.
  - intros [[Hne Hw] [rest Hl]]. rewrite Hl.
    rewrite take_word_app by (done || apply colon_not_word).
    by destruct w.
Qed.

(** A line declares at most one key. *)
Lemma declares_functional db line w1 w2 :
  declares db line w1 → declares db line w2 → w1 = w2.
Proof.
  rewrite <- !key_of_line_declares. congruence.
Qed.

Lemma backtrack_top {A} (tail : nat → option A) mn n :
  (∀ k, (mn ≤ k < n)%nat → tail k = None) → backtrack tail mn n = tail n.
Proof.
  induction n as [|n IH]; simpl; intros Hlow.
  - by destruct (tail 0%nat).
  - destruct (tail (S n)) eqn:Htop; [done|].
    destruct (decide (mn ≤ n)%nat) as [Hle|_]; [|done].
    rewrite IH by (intros k Hk; apply Hlow; lia).
    apply Hlow. lia.
Qed.

Section KeyPattern.
Context (db : UnicodeDB).

Lemma after_space_inside line n :
  (n < sre_count uni_isspace line)%nat → after_space db line n = None.
Proof.
  intros Hn. unfold after_space. simpl.
  destruct (sre_count_lookup_lt _ _ _ Hn) as (c & Hc & Hsp).
  rewrite (sre_count_stop _ _ c).
  - done.
  - by rewrite lookup_drop, Nat.add_0_r.
  - by apply space_not_word.
Qed.

Lemma after_space_at line n :
  after_space db line n =
    match take_word db (drop n line) with
    | ((_ :: _) as w, 58 :: _) =>
        Some (S (n + length w), <[1%nat := (n + length w)%nat]> (<[0%nat := n]> ∅))
    | _ => None
    end.
Proof.
  unfold after_space. simpl. rewrite take_word_count.
  set (body := drop n line). set (cw := sre_count (uni_isword db) body).
  assert (cw ≤ length body)%nat as Hcw by apply sre_count_le.
  destruct (decide (1 ≤ cw)%nat) as [Hpos|Hzero].
  - rewrite backtrack_top.
    + rewrite <- (lookup_drop line n cw). fold body.
      destruct (take cw body) as [|x w] eqn:Htake.
      { apply (f_equal length) in Htake. rewrite length_take in Htake.
        simpl in Htake. lia. }
      assert (length (x :: w) = cw) as Hlen.
      { rewrite <- Htake, length_take. lia. }
      rewrite Hlen.
      destruct (drop cw body) as [|c r] eqn:Hdrop.
      * rewrite <- (Nat.add_0_r cw), <- lookup_drop, Hdrop. done.
      * rewrite <- (Nat.add_0_r cw), <- lookup_drop, Hdrop. simpl.
        destruct (decide (c = 58)) as [->|Hne]; [done|].
        colon_cases c.
    + intros k Hk.
      destruct (sre_count_lookup_lt (uni_isword db) body k) as (c & Hc & Hw);
        [unfold cw in Hk; lia|].
      unfold body in Hc. rewrite lookup_drop in Hc. rewrite Hc.
      destruct (decide (c = 58)) as [->|_]; [|done].
      by rewrite colon_not_word in Hw.
  - assert (cw = 0)%nat as -> by lia. by rewrite take_0.
Qed.

(** At the start of the line the pattern finds the key of the scanner. *)
Lemma sre_match_key line :
  sre_match (KEY_RE db) line 0 ∅ =
    match key_of_line db line with
    | Some w =>
        let a := sre_count uni_isspace line in
        Some (S (a + length w), <[1%nat := (a + length w)%nat]> (<[0%nat := a]> ∅))
    | None => None
    end.
Proof.
  unfold KEY_RE. cbn [sre_match]. rewrite decide_True by done.
  rewrite drop_0, decide_True by lia.
  rewrite backtrack_top.
  - match goal with
    | |- _ = ?rhs => change (after_space db line (sre_count uni_isspace line) = rhs)
    end.
    rewrite after_space_at. unfold key_of_line. rewrite lstrip_drop.
    destruct (take_word db (drop _ line)) as [[|x w] [|c r]]; try done.
    colon_cases c.
  - intros k Hk. apply (after_space_inside line k). simpl; lia.
Qed.

(** Anywhere else [^] fails. *)
Lemma sre_match_key_later line pos m :
  sre_match (KEY_RE db) line (S pos) m = None.
Proof. done. Qed.

Lemma sre_search_unfold code s pos fuel :
  sre_search code s pos fuel =
    match sre_match code s pos ∅ with
    | Some r => Some r
    | None =>
        match fuel with
        | S fuel' => sre_search code s (S pos) fuel'
        | O => None
        end
    end.
Proof. by destruct fuel. Qed.

Lemma sre_search_key_later line pos fuel :
  sre_search (KEY_RE db) line (S pos) fuel = None.
Proof.
  revert pos. induction fuel as [|fuel IH]; intros pos;
    rewrite sre_search_unfold, sre_match_key_later; [done|apply IH].
Qed.

Lemma sre_search_key line :
  sre_search (KEY_RE db) line 0 (length line) = sre_match (KEY_RE db) line 0 ∅.
Proof.
  rewrite sre_search_unfold.
  destruct (sre_match (KEY_RE db) line 0 ∅); [done|].
  destruct (length line); [done|apply sre_search_key_later].
Qed.

(** The loop body adds the declared key of the line, if there is one. *)
Lemma extract_line_key keys line :
  extract_line db keys line =
    match key_of_line db line with
    | Some w => {[ w ]} ∪ keys
    | None => keys
    end.
Proof.
  unfold extract_line, re_search. rewrite sre_search_key, sre_match_key.
  destruct (key_of_line db line) as [w|] eqn:Hkey; [|done].
  cbn zeta. unfold group; simpl.
  rewrite lookup_insert_ne, lookup_insert_eq, lookup_insert_eq by done.
  do 2 f_equal.
  unfold key_of_line in Hkey. rewrite lstrip_drop in Hkey.
  destruct (take_word db (drop _ line)) as [w' r] eqn:Ht.
  apply take_word_spec in Ht as [Hl _].
  assert (w' = w) as ->.
  { destruct w' as [|x w']; [done|]. destruct r as [|c r]; [done|].
    colon_cases c. }
  rewrite Hl. replace (_ + length w - _)%nat with (length w) by lia.
  by rewrite take_app_length.
Qed.

(** The keys of a text are the keys its lines declare. *)
Lemma elem_of_extract_lines lines keys w :
  w ∈ foldl (extract_line db) keys lines
  ↔ w ∈ keys ∨ ∃ line, line ∈ lines ∧ declares db line w.
Proof.
  revert keys. induction lines as [|l lines IH]; intros keys; simpl.
  - split; [auto|]. intros [?|(line & Hin & _)]; [done|]. by apply elem_of_nil in Hin.
  - rewrite IH, extract_line_key. setoid_rewrite elem_of_cons.
    destruct (key_of_line db l) as [k|] eqn:Hk.
    + rewrite elem_of_union, elem_of_singleton. split.
      * intros [[->|?]|(line & ? & ?)]; [|by left|by right; eauto].
        right. exists l. split; [by left|]. by apply key_of_line_declares.
      * intros [?|(line & [->|?] & Hd)]; [by left; right| |by right; eauto].
        apply key_of_line_declares in Hd. left; left. congruence.
    + split.
      * intros [?|(line & ? & ?)]; [by left|by right; eauto].
      * intros [?|(line & [->|?] & Hd)]; [by left| |by right; eauto].
        apply key_of_line_declares in Hd. congruence.
Qed.

Lemma elem_of_extract_keys_text text w :
  w ∈ extract_keys_text db text
  ↔ ∃ line, line ∈ file_lines text ∧ declares db line w.
Proof.
  unfold extract_keys_text. rewrite elem_of_extract_lines.
  split; [|by right]. intros [Hin|?]; [|done]. by apply not_elem_of_empty in Hin.
Qed.

End KeyPattern.

(** ** The monad *)

Lemma io_bind_inr {A B} (m : io A) (f : A → io B) w x w' :
  m w = (inr x, w') → (m ≫= f) w = f x w'.
Proof. unfold mbind, io_bind. by intros ->. Qed.

Lemma io_bind_inl {A B} (m : io A) (f : A → io B) w e w' :
  m w = (inl e, w') → (m ≫= f) w = (inl e, w').
Proof. unfold mbind, io_bind. by intros ->. Qed.

Lemma extend_extend w o1 c1 o2 c2 :
  extend (extend w o1 c1) o2 c2 = extend w (o1 ++ o2) (c1 ++ c2).
Proof. unfold extend; simpl. by rewrite <- !(assoc_L (++)). Qed.

Lemma extend_nil w : extend w [] [] = w.
Proof. destruct w. unfold extend; simpl. by rewrite !app_nil_r. Qed.

Lemma print_run s w : print s w = (inr (), extend w (s ++ [10]) []).
Proof. unfold print, extend. by rewrite app_nil_r. Qed.

Section Runs.
Context (db : UnicodeDB) (ord : SetOrder) (fs : filesystem).

Lemma extract_keys_inr file_path text w :
  fs_read fs file_path = inr text →
  extract_keys db fs file_path w
  = (inr (extract_keys_text db text), extend w [] [SysOpen file_path]).
Proof.
  intros Hr. unfold extract_keys, open_read.
  erewrite io_bind_inr; [done|].
  unfold syscall_result, extend. by rewrite Hr, app_nil_r.
Qed.

Lemma extract_keys_inl file_path e w :
  fs_read fs file_path = inl e →
  extract_keys db fs file_path w = (inl e, extend w [] [SysOpen file_path]).
Proof.
  intros Hr. unfold extract_keys, open_read.
  erewrite io_bind_inl; [done|].
  unfold syscall_result, extend. by rewrite Hr, app_nil_r.
Qed.

Lemma skipped_candidate f : skipped f = false ↔ is_candidate f.
Proof.
  unfold skipped, is_candidate.
  rewrite orb_false_iff, negb_false_iff, bool_decide_eq_false, endswith_suffix.
  tauto.
Qed.

Lemma skipped_not_candidate f : skipped f = true ↔ ¬ is_candidate f.
Proof. rewrite <- skipped_candidate. by destruct (skipped f). Qed.

Lemma for_each_app {A S} (xs ys : list A) (body : A → S → io S) s w :
  for_each (xs ++ ys) body s w =
    match for_each xs body s w with
    | (inr s', w') => for_each ys body s' w'
    | (inl e, w') => (inl e, w')
    end.
Proof.
  revert s w. induction xs as [|x xs IH]; intros s w; simpl; [done|].
  unfold mbind, io_bind. destruct (body x s w) as [[e|s'] w']; [done|]. apply IH.
Qed.

(** *** The scanning loop *)

Lemma scan_body_skip f v w :
  ¬ is_candidate f → scan_body db fs f v w = (inr v, w).
Proof. intros Hf. unfold scan_body. by apply skipped_not_candidate in Hf as ->. Qed.

Lemma scan_body_read f v w :
  is_candidate f → readable db fs f →
  scan_body db fs f v w
  = (inr {| en_keys := en_keys v;
            missing_report := record_missing db fs (en_keys v) (missing_report v) f |},
     extend w [] [SysOpen (path_of f)]).
Proof.
  intros Hf [ks Hks]. unfold scan_body. apply skipped_candidate in Hf as ->.
  unfold record_missing, missing_keys. rewrite Hks. unfold key_set in Hks.
  fold (path_of f). destruct (fs_read fs (path_of f)) as [e|text] eqn:Hr; [done|].
  injection Hks as <-.
  erewrite io_bind_inr by by apply extract_keys_inr.
  simpl. case_bool_decide as Hm; destruct (decide _) as [Hm'|Hm']; try done.
  - by destruct v.
Qed.

Lemma scan_body_fail f v w e :
  is_candidate f → fs_read fs (path_of f) = inl e →
  scan_body db fs f v w = (inl e, extend w [] [SysOpen (path_of f)]).
Proof.
  intros Hf Hr. unfold scan_body. apply skipped_candidate in Hf as ->.
  erewrite io_bind_inl; [done|]. by apply extract_keys_inl.
Qed.

Lemma candidates_cons f names :
  candidates (f :: names)
  = if decide (is_candidate f) then f :: candidates names else candidates names.
Proof. unfold candidates. by rewrite filter_cons. Qed.

(** Every candidate is readable: the loop opens each of them in turn and
    ends with the report built from them. *)
Lemma scan_loop_ok names v w :
  Forall (readable db fs) (candidates names) →
  for_each names (scan_body db fs) v w
  = (inr {| en_keys := en_keys v;
            missing_report :=
              foldl (record_missing db fs (en_keys v)) (missing_report v)
                    (candidates names) |},
     extend w [] (SysOpen ∘ path_of <$> candidates names)).
Proof.
  revert v w. induction names as [|f names IH]; intros v w Hall.
  - simpl. rewrite extend_nil. by destruct v.
  - rewrite candidates_cons in *. cbn [for_each].
    destruct (decide (is_candidate f)) as [Hf|Hf].
    + apply Forall_cons in Hall as [Hr Hall].
      erewrite io_bind_inr by by apply scan_body_read.
      rewrite IH by done. simpl. by rewrite extend_extend.
    + erewrite io_bind_inr by by apply scan_body_skip.
      by apply IH.
Qed.

(** The first candidate that cannot be read ends the loop. *)
Lemma scan_loop_fail names1 f names2 e v w :
  Forall (readable db fs) (candidates names1) →
  is_candidate f → fs_read fs (path_of f) = inl e →
  for_each (names1 ++ f :: names2) (scan_body db fs) v w
  = (inl e, extend w [] (SysOpen ∘ path_of <$> (candidates names1 ++ [f]))).
Proof.
  intros Hall Hf Hr. rewrite for_each_app, scan_loop_ok by done.
  cbn [for_each]. erewrite io_bind_inl by by apply scan_body_fail.
  by rewrite extend_extend, fmap_app.
Qed.

Lemma first_unreadable names :
  ¬ Forall (readable db fs) (candidates names) →
  ∃ names1 f names2 e,
    names = names1 ++ f :: names2 ∧ Forall (readable db fs) (candidates names1)
    ∧ is_candidate f ∧ fs_read fs (path_of f) = inl e.
Proof.
  induction names as [|f names IH]; intros Hnot.
  - by destruct Hnot.
  - rewrite candidates_cons in Hnot.
    destruct (decide (is_candidate f)) as [Hf|Hf].
    + destruct (decide (readable db fs f)) as [Hr|Hr].
      * destruct IH as (n1 & g & n2 & e & -> & Hn1 & Hg & He).
        { intros Hall. apply Hnot. by constructor. }
        exists (f :: n1), g, n2, e. rewrite candidates_cons, decide_True by done.
        split_and!; try done. by constructor.
      * unfold readable, key_set in Hr.
        destruct (fs_read fs (path_of f)) as [e|text] eqn:He.
        -- by exists [], f, names, e.
        -- destruct Hr. eauto.
    + destruct IH as (n1 & g & n2 & e & -> & Hn1 & Hg & He); [done|].
      exists (f :: n1), g, n2, e. by rewrite candidates_cons, decide_False by done.
Qed.

(** *** Rendering *)

Lemma print_keys_run keys w :
  for_each keys (λ key _, print (lit " - " ++ key)) () w
  = (inr (), extend w (concat (key_line <$> keys)) []).
Proof.
  revert w. induction keys as [|k keys IH]; intros w; cbn [for_each].
  - by rewrite extend_nil.
  - erewrite io_bind_inr by apply print_run. rewrite IH, extend_extend.
    unfold key_line. simpl. by rewrite <- !(assoc_L (++)).
Qed.

Lemma report_body_run item u w :
  report_body ord item u w = (inr (), extend w (section_text ord item) []).
Proof.
  unfold report_body. erewrite io_bind_inr by apply print_run.
  rewrite print_keys_run, extend_extend. unfold section_text.
  simpl. by rewrite <- !(assoc_L (++)).
Qed.

Lemma report_loop_run report w :
  for_each report (report_body ord) () w
  = (inr (), extend w (concat (section_text ord <$> report)) []).
Proof.
  revert w. induction report as [|item report IH]; intros w; cbn [for_each].
  - by rewrite extend_nil.
  - erewrite io_bind_inr by apply report_body_run.
    rewrite IH, extend_extend. simpl. by rewrite <- !(assoc_L (++)).
Qed.

Lemma render_run report w :
  render ord report w = (inr (), extend w (report_text ord report) []).
Proof.
  unfold render. destruct report as [|item report].
  - rewrite bool_decide_eq_true_2 by done. apply print_run.
  - rewrite bool_decide_eq_false_2 by done. apply report_loop_run.
Qed.

End Runs.

(** ** Sorting *)

Lemma sorted_Permutation ord m : sorted ord m ≡ₚ elements m.
Proof. unfold sorted. by rewrite merge_sort_Permutation, set_iter_perm. Qed.

Lemma sorted_StronglySorted ord m : StronglySorted str_le (sorted ord m).
Proof. apply StronglySorted_merge_sort; apply _. Qed.

(** The iteration order of the set does not show in the sorted list. *)
Lemma sorted_order_irrelevant ord1 ord2 m : sorted ord1 m = sorted ord2 m.
Proof.
  apply (StronglySorted_unique str_le); try apply sorted_StronglySorted.
  by rewrite !sorted_Permutation.
Qed.

Lemma StronglySorted_NoDup_strict (l : list (list N)) :
  NoDup l → StronglySorted str_le l → StronglySorted str_lt l.
Proof.
  intros Hnd Hs. induction Hs as [|x l Hs IH Hx]; [constructor|].
  apply NoDup_cons in Hnd as [Hx' Hnd]. constructor; [by apply IH|].
  rewrite Forall_forall in *. intros y Hy. split; [by apply Hx|].
  intros ->. done.
Qed.

Lemma sorted_strict ord m : StronglySorted str_lt (sorted ord m).
Proof.
  apply StronglySorted_NoDup_strict; [|apply sorted_StronglySorted].
  rewrite sorted_Permutation. apply NoDup_elements.
Qed.

Lemma elem_of_sorted ord m k : k ∈ sorted ord m ↔ k ∈ m.
Proof. by rewrite sorted_Permutation, elem_of_elements. Qed.

(** ** Dictionaries *)

Lemma dict_get_set d k v k' :
  dict_get (dict_set d k v) k' = if decide (k = k') then Some v else dict_get d k'.
Proof.
  induction d as [|[k0 v0] d IH]; simpl.
  - by destruct (decide (k = k')).
  - destruct (decide (k0 = k)) as [->|Hne]; simpl.
    + by destruct (decide (k = k')).
    + rewrite IH. destruct (decide (k0 = k')) as [->|]; [|done].
      by rewrite decide_False by done.
Qed.

(** On keys that are not yet present [dict_set] appends. *)
Lemma dict_set_fresh d k v : k ∉ d.*1 → dict_set d k v = d ++ [(k, v)].
Proof.
  induction d as [|[k0 v0] d IH]; simpl; [done|].
  rewrite not_elem_of_cons. intros [Hne Hk].
  rewrite decide_False by done. by rewrite IH.
Qed.

(** ** Paths *)

Lemma path_of_cases f :
  path_of f = f ∧ f !! 0%nat = Some 47
  ∨ path_of f = lit "../locales/" ++ f ∧ f !! 0%nat ≠ Some 47.
Proof.
  unfold path_of, path_join.
  change (bool_decide (locales_dir = []) || endswith locales_dir [47]) with false.
  cbn match. destruct f as [|c f]; [by right|].
  destruct (decide (c = 47)) as [->|Hc]; [by left|].
  right. split; [|simpl; congruence]. by colon_cases c.
Qed.

Lemma path_of_inj f g : path_of f = path_of g → f = g.
Proof.
  assert (∀ h : list N, (lit "../locales/" ++ h) !! 0%nat = Some 46) as Hdot by done.
  destruct (path_of_cases f) as [[-> Hf]|[-> Hf]],
    (path_of_cases g) as [[-> Hg]|[-> Hg]]; try done.
  - intros ->. by rewrite Hdot in Hf.
  - intros <-. by rewrite Hdot in Hg.
  - by intros ?%(inj (lit "../locales/" ++.)).
Qed.

Lemma en_file_path : en_file = path_of (lit "en.ts").
Proof. done. Qed.

(** ** The report *)

Section Report.
Context (db : UnicodeDB) (fs : filesystem) (en : gset (list N)).

Lemma elem_of_dict_set (d : list (list N * gset (list N))) k v item :
  item ∈ dict_set d k v → item = (k, v) ∨ item ∈ d.
Proof.
  induction d as [|[k0 v0] d IH]; simpl.
  - intros ->%list_elem_of_singleton. by left.
  - destruct (decide (k0 = k)) as [->|_]; rewrite !elem_of_cons.
    + intros [->|?]; auto.
    + intros [->|[->|?]%IH]; auto.
Qed.

(** What the loop leaves under a file name. *)
Lemma dict_get_record_loop cands d f :
  dict_get (foldl (record_missing db fs en) d cands) f =
    if decide (f ∈ cands ∧ missing_keys db fs en f ≠ ∅)
    then Some (missing_keys db fs en f) else dict_get d f.
Proof.
  revert d. induction cands as [|g cands IH]; intros d; cbn [foldl].
  - destruct (decide _) as [[Hin _]|_]; [|done]. by apply elem_of_nil in Hin.
  - rewrite IH. unfold record_missing at 1.
    destruct (decide (f ∈ cands ∧ missing_keys db fs en f ≠ ∅)) as [[Hin Hne]|Hno].
    + rewrite decide_True; [done|]. split; [by right|done].
    + destruct (decide (missing_keys db fs en g = ∅)) as [Hg|Hg].
      * destruct (decide (f ∈ g :: cands ∧ _)) as [[Hin Hne]|_]; [|done].
        apply elem_of_cons in Hin as [->|Hin]; [done|]. destruct Hno. auto.
      * rewrite dict_get_set. destruct (decide (g = f)) as [->|Hgf].
        -- rewrite decide_True; [done|]. split; [by left|done].
        -- rewrite decide_False; [done|]. intros [Hin Hne].
           apply elem_of_cons in Hin as [->|Hin]; [done|]. destruct Hno. auto.
Qed.

(** Every entry of the report is a candidate with its missing keys, and
    some key is missing. *)
Lemma record_loop_items cands d item :
  item ∈ foldl (record_missing db fs en) d cands →
  item ∈ d
  ∨ item.1 ∈ cands ∧ item.2 = missing_keys db fs en item.1 ∧ item.2 ≠ ∅.
Proof.
  revert d. induction cands as [|g cands IH]; intros d; simpl; [by left|].
  intros [Hin|(Hin & Hm & Hne)]%IH.
  - unfold record_missing in Hin.
    destruct (decide (missing_keys db fs en g = ∅)) as [Hg|Hg]; [by left|].
    apply elem_of_dict_set in Hin as [->|Hin]; [|by left].
    right. simpl. split_and!; [by left|done|done].
  - right. split_and!; [by right|done|done].
Qed.

Lemma record_loop_nil cands d :
  (∀ f, f ∈ cands → missing_keys db fs en f = ∅) →
  foldl (record_missing db fs en) d cands = d.
Proof.
  revert d. induction cands as [|g cands IH]; intros d Hall; simpl; [done|].
  unfold record_missing at 2. rewrite decide_True by (apply Hall; by left).
  apply IH. intros f Hf. apply Hall. by right.
Qed.

(** When no name is listed twice, the entries stand in the order of the
    listing. *)
Lemma record_loop_keys cands d :
  NoDup cands → (∀ f, f ∈ cands → f ∉ d.*1) →
  (foldl (record_missing db fs en) d cands).*1
  = d.*1 ++ filter (λ f, missing_keys db fs en f ≠ ∅) cands.
Proof.
  revert d. induction cands as [|g cands IH]; intros d Hnd Hfresh; simpl.
  - by rewrite filter_nil, app_nil_r.
  - apply NoDup_cons in Hnd as [Hg Hnd]. rewrite filter_cons.
    unfold record_missing at 2.
    destruct (decide (missing_keys db fs en g = ∅)) as [Hm|Hm].
    + rewrite decide_False by (by intros []).
      apply IH; [done|]. intros f Hf. apply Hfresh. by right.
    + rewrite decide_True by done.
      rewrite dict_set_fresh by (apply Hfresh; by left).
      rewrite IH; [by rewrite fmap_app, <- (assoc_L (++))|done|].
      intros f Hf. rewrite fmap_app, elem_of_app. intros [Hin|Hin].
      * revert Hin. apply Hfresh. by right.
      * apply list_elem_of_singleton in Hin. simpl in Hin. congruence.
Qed.

Lemma build_report_keys names :
  NoDup names →
  (build_report db fs en names).*1
  = filter (λ f, missing_keys db fs en f ≠ ∅) (candidates names).
Proof.
  intros Hnd. unfold build_report. rewrite record_loop_keys; [done| |].
  - by apply NoDup_filter.
  - intros f _ Hin. by apply elem_of_nil in Hin.
Qed.

Lemma build_report_get names f :
  dict_get (build_report db fs en names) f =
    if decide (f ∈ candidates names ∧ missing_keys db fs en f ≠ ∅)
    then Some (missing_keys db fs en f) else None.
Proof. apply dict_get_record_loop. Qed.

Lemma build_report_items names item :
  item ∈ build_report db fs en names →
  item.1 ∈ candidates names ∧ item.2 = missing_keys db fs en item.1 ∧ item.2 ≠ ∅.
Proof.
  intros [Hin|?]%record_loop_items; [|done]. by apply elem_of_nil in Hin.
Qed.

End Report.

(** ** Runs of the script *)

Section MainRuns.
Context (db : UnicodeDB) (ord : SetOrder) (fs : filesystem).

Lemma found_line_text (keys : gset (list N)) :
  found_line (size keys) ++ [10] = found_text keys.
Proof. unfold found_line, found_text. by rewrite <- !(assoc_L (++)). Qed.

(** The reference file cannot be read. *)
Lemma run_reference_fails e :
  fs_read fs en_file = inl e →
  run db ord fs = (inl e, {| stdout := []; calls := [SysOpen en_file] |}).
Proof.
  intros Hr. unfold run, main.
  erewrite io_bind_inl; [done|]. by apply extract_keys_inl.
Qed.

(** The directory cannot be listed. *)
Lemma run_listdir_fails text e :
  fs_read fs en_file = inr text → fs_listdir fs locales_dir = inl e →
  run db ord fs
  = (inl e, {| stdout := found_text (extract_keys_text db text);
               calls := [SysOpen en_file; SysListdir locales_dir] |}).
Proof.
  intros Hr Hl. unfold run, main.
  erewrite io_bind_inr by by apply extract_keys_inr.
  erewrite io_bind_inr by apply print_run.
  erewrite io_bind_inl; [done|].
  unfold os_listdir, syscall_result, extend, world0. rewrite Hl.
  cbn [stdout calls app]. by rewrite ?app_nil_r, found_line_text.
Qed.

(** A candidate cannot be read. *)
Lemma run_candidate_fails text names1 f names2 e :
  fs_read fs en_file = inr text →
  fs_listdir fs locales_dir = inr (names1 ++ f :: names2) →
  Forall (readable db fs) (candidates names1) →
  is_candidate f → fs_read fs (path_of f) = inl e →
  run db ord fs
  = (inl e, {| stdout := found_text (extract_keys_text db text);
               calls := [SysOpen en_file; SysListdir locales_dir]
                        ++ (SysOpen ∘ path_of <$> candidates names1)
                        ++ [SysOpen (path_of f)] |}).
Proof.
  intros Hr Hl Hall Hf He. unfold run, main.
  erewrite io_bind_inr by by apply extract_keys_inr.
  erewrite io_bind_inr by apply print_run.
  erewrite io_bind_inr; last first.
  { unfold os_listdir, syscall_result. by rewrite Hl. }
  erewrite io_bind_inl; last first.
  { by apply scan_loop_fail. }
  unfold extend, world0. cbn [stdout calls app].
  by rewrite ?app_nil_r, found_line_text, fmap_app.
Qed.

(** Every access succeeds. *)
Lemma run_ok text names :
  fs_read fs en_file = inr text →
  fs_listdir fs locales_dir = inr names →
  Forall (readable db fs) (candidates names) →
  let en := extract_keys_text db text in
  run db ord fs
  = (inr {| en_keys := en; missing_report := build_report db fs en names |},
     {| stdout := found_text en ++ report_text ord (build_report db fs en names);
        calls := [SysOpen en_file; SysListdir locales_dir]
                 ++ (SysOpen ∘ path_of <$> candidates names) |}).
Proof.
  intros Hr Hl Hall en. unfold run, main.
  erewrite io_bind_inr by by apply extract_keys_inr.
  erewrite io_bind_inr by apply print_run.
  erewrite io_bind_inr; last first.
  { unfold os_listdir, syscall_result. by rewrite Hl. }
  erewrite io_bind_inr by by apply scan_loop_ok.
  erewrite io_bind_inr by apply render_run.
  unfold extend, world0. cbn [stdout calls app].
  by rewrite ?app_nil_r, found_line_text.
Qed.

End MainRuns.

(** ** The shape of every run *)

Section RunCases.
Context (db : UnicodeDB) (ord : SetOrder) (fs : filesystem).

Lemma run_cases : run_shape db ord fs.
Proof.
  destruct (fs_read fs en_file) as [e|text] eqn:Hr.
  { eapply shape_reference_fails; [done|]. by apply run_reference_fails. }
  destruct (fs_listdir fs locales_dir) as [e|names] eqn:Hl.
  { eapply shape_listdir_fails; [done..|]. by apply run_listdir_fails. }
  destruct (decide (Forall (readable db fs) (candidates names))) as [Hall|Hnot].
  { eapply shape_ok; [done..|]. by apply run_ok. }
  apply first_unreadable in Hnot as (n1 & f & n2 & e & -> & Hn1 & Hf & He).
  apply (shape_candidate_fails db ord fs text n1 f n2 e); [done..|].
  by apply (run_candidate_fails db ord fs text n1 f n2 e).
Qed.

(** A run that returns has read everything it asked for. *)
Lemma run_inr_inv v w :
  run db ord fs = (inr v, w) →
  ∃ text names,
    fs_read fs en_file = inr text ∧ fs_listdir fs locales_dir = inr names
    ∧ Forall (readable db fs) (candidates names)
    ∧ v = {| en_keys := extract_keys_text db text;
             missing_report := build_report db fs (extract_keys_text db text) names |}
    ∧ w = {| stdout := found_text (extract_keys_text db text)
                       ++ report_text ord
                            (build_report db fs (extract_keys_text db text) names);
             calls := [SysOpen en_file; SysListdir locales_dir]
                      ++ (SysOpen ∘ path_of <$> candidates names) |}.
Proof.
  intros Hrun. destruct run_cases as [e ? Heq|text e ? ? Heq|text n1 f n2 e ? ? ? ? ? Heq
                                      |text names ? ? ? Heq];
    rewrite Heq in Hrun; try done.
  injection Hrun as <- <-. by exists text, names.
Qed.

Lemma candidate_not_reference f : is_candidate f → SysOpen (path_of f) ≠ SysOpen en_file.
Proof.
  intros [_ Hne] [= Heq]. rewrite en_file_path in Heq. by apply path_of_inj in Heq.
Qed.

Lemma reference_not_among_candidates names :
  SysOpen en_file ∉ (SysOpen ∘ path_of <$> candidates names).
Proof.
  intros (f & Heq & Hf)%list_elem_of_fmap.
  apply list_elem_of_filter in Hf as [Hf _].
  by eapply candidate_not_reference.
Qed.

End RunCases.

(** The set order shows in no run. *)
Lemma report_text_set_order ord1 ord2 report :
  report_text ord1 report = report_text ord2 report.
Proof.
  assert (∀ item, section_text ord1 item = section_text ord2 item) as Hsec.
  { intros item. unfold section_text. by rewrite (sorted_order_irrelevant ord1 ord2). }
  destruct report as [|item report]; [done|]. unfold report_text.
  f_equal. apply list_fmap_ext. auto.
Qed.

Lemma run_set_order db ord1 ord2 fs : run db ord1 fs = run db ord2 fs.
Proof.
  destruct (run_cases db ord1 fs) as [e ? Heq|text e ? ? Heq|text n1 f n2 e ? ? ? ? ? Heq
                                      |text names ? ? ? Heq]; rewrite Heq.
  - by rewrite (run_reference_fails db ord2 fs e).
  - by rewrite (run_listdir_fails db ord2 fs text e).
  - by rewrite (run_candidate_fails db ord2 fs text n1 f n2 e).
  - erewrite (run_ok db ord2) by done. cbn zeta.
    by rewrite (report_text_set_order ord1 ord2).
Qed.

(** ** Lines of a file *)

Lemma split_lines_concat cur s : concat (split_lines cur s) = cur ++ s.
Proof.
  revert cur. induction s as [|c s IH]; intros cur; simpl.
  - destruct (decide (cur = [])) as [->|_]; simpl; by rewrite ?app_nil_r.
  - destruct (c =? 10); simpl; rewrite IH; by rewrite <- ?(assoc_L (++)).
Qed.

(** The lines of a file make up its text, newlines translated. *)
Lemma file_lines_concat text : concat (file_lines text) = translate_newlines text.
Proof. apply split_lines_concat. Qed.

(** * The claims *)

(** C1. For every readable text file, [extract_keys] returns exactly the
    set of the word runs [w] such that some line of the file, once its
    leading white space is stripped, begins with [w] (a non-empty run of
    letters, digits and underscores) immediately followed by a colon.  A
    line declares at most one key, and a line that declares none adds
    nothing.  On the lines ["  foo: bar"], ["baz: qux"],
    ["not_a_key line"], ["  123abc: x"] the result is [{foo, baz, 123abc}]. *)
Theorem extract_keys_exact db fs file_path text w0 :
  fs_read fs file_path = inr text →
  ∃ keys,
    (extract_keys db fs file_path w0).1 = inr keys
    ∧ (∀ w, w ∈ keys ↔ ∃ line, line ∈ file_lines text ∧ declares db line w)
    ∧ (∀ line w1 w2, declares db line w1 → declares db line w2 → w1 = w2)
    ∧ (∀ line ks, (∀ w, ¬ declares db line w) → extract_line db ks line = ks)
    ∧ (text = unlines example_lines →
       keys = {[ lit "foo"; lit "baz"; lit "123abc" ]}).
Proof.
  intros Hr. exists (extract_keys_text db text). split_and!.
  - by rewrite (extract_keys_inr db fs file_path text).
  - apply elem_of_extract_keys_text.
  - apply declares_functional.
  - intros line ks Hnone. rewrite extract_line_key.
    destruct (key_of_line db line) as [w|] eqn:Hk; [|done].
    by apply key_of_line_declares, Hnone in Hk.
  - intros ->. by vm_compute.
Qed.

Lemma extract_keys_exact_witness :
  ∃ keys,
    (extract_keys ascii_db fs_example en_file world0).1 = inr keys
    ∧ (∀ w, w ∈ keys ↔ ∃ line, line ∈ file_lines (unlines example_lines)
                                ∧ declares ascii_db line w)
    ∧ (∀ line w1 w2, declares ascii_db line w1 → declares ascii_db line w2 → w1 = w2)
    ∧ (∀ line ks, (∀ w, ¬ declares ascii_db line w) → extract_line ascii_db ks line = ks)
    ∧ (unlines example_lines = unlines example_lines →
       keys = {[ lit "foo"; lit "baz"; lit "123abc" ]}).
Proof.
  apply (extract_keys_exact ascii_db fs_example en_file (unlines example_lines) world0).
  reflexivity.
Defined.

(** C2. For every candidate file the script computes the set difference
    of the reference keys and the keys of the candidate, and the candidate
    is recorded in the report if and only if the difference is not empty;
    what is recorded is the difference.  With the reference keys
    [{a, b, c}] and a candidate with the keys [{a, c}], the report for the
    candidate lists the key [b] and no other. *)
Theorem missing_is_set_difference db ord fs text names :
  fs_read fs en_file = inr text →
  fs_listdir fs locales_dir = inr names →
  Forall (readable db fs) (candidates names) →
  ∃ v w,
    run db ord fs = (inr v, w)
    ∧ en_keys v = extract_keys_text db text
    ∧ (∀ f ks, f ∈ candidates names → key_set db fs f = Some ks →
         (∀ k, k ∈ en_keys v ∖ ks ↔ k ∈ en_keys v ∧ k ∉ ks)
         ∧ (is_Some (dict_get (missing_report v) f) ↔ en_keys v ∖ ks ≠ ∅)
         ∧ (∀ m, dict_get (missing_report v) f = Some m → m = en_keys v ∖ ks))
    ∧ (∀ f, section_text ord (f, {[ lit "a"; lit "b"; lit "c" ]} ∖ {[ lit "a"; lit "c" ]})
            = [10] ++ lit "Missing keys in " ++ f ++ lit ":" ++ [10]
              ++ lit " - b" ++ [10])
    ∧ stdout (run db ord fs_missing_b).2
      = unlines ["Found 3 keys in en.ts"; ""; "Missing keys in de.ts:"; " - b"].
Proof.
  intros Hr Hl Hall. eexists _, _. split; [by apply run_ok|]. cbn [en_keys missing_report].
  split_and!.
  - done.
  - intros f ks Hf Hks. rewrite build_report_get.
    assert (missing_keys db fs (extract_keys_text db text) f
            = extract_keys_text db text ∖ ks) as Hm.
    { unfold missing_keys. by rewrite Hks. }
    rewrite Hm. split_and!.
    + intros k. apply elem_of_difference.
    + destruct (decide _) as [[_ Hne]|Hno].
      * split; [done|]. by eexists.
      * split; [by intros [? ?]|]. intros Hne. by destruct Hno.
    + intros m. destruct (decide _); [|done]. by intros [= <-].
  - intros f. unfold section_text. cbn [fst snd].
    rewrite (sorted_order_irrelevant ord elements_order).
    assert (sorted elements_order
              ({[ lit "a"; lit "b"; lit "c" ]} ∖ {[ lit "a"; lit "c" ]}) = [lit "b"])
      as -> by by vm_compute.
    done.
  - rewrite (run_set_order db ord elements_order). by vm_compute.
Qed.

Lemma missing_is_set_difference_witness :
  ∃ v w,
    run ascii_db elements_order fs_missing_b = (inr v, w)
    ∧ en_keys v = extract_keys_text ascii_db (unlines ["a: 1"; "b: 2"; "c: 3"])
    ∧ (∀ f ks, f ∈ candidates (lit <$> ["fr.ts"; "en.ts"; "readme.md"; "de.ts"]) →
         key_set ascii_db fs_missing_b f = Some ks →
         (∀ k, k ∈ en_keys v ∖ ks ↔ k ∈ en_keys v ∧ k ∉ ks)
         ∧ (is_Some (dict_get (missing_report v) f) ↔ en_keys v ∖ ks ≠ ∅)
         ∧ (∀ m, dict_get (missing_report v) f = Some m → m = en_keys v ∖ ks))
    ∧ (∀ f, section_text elements_order
              (f, {[ lit "a"; lit "b"; lit "c" ]} ∖ {[ lit "a"; lit "c" ]})
            = [10] ++ lit "Missing keys in " ++ f ++ lit ":" ++ [10]
              ++ lit " - b" ++ [10])
    ∧ stdout (run ascii_db elements_order fs_missing_b).2
      = unlines ["Found 3 keys in en.ts"; ""; "Missing keys in de.ts:"; " - b"].
Proof.
  apply (missing_is_set_difference ascii_db elements_order fs_missing_b
           (unlines ["a: 1"; "b: 2"; "c: 3"])
           (lit <$> ["fr.ts"; "en.ts"; "readme.md"; "de.ts"])).
  - reflexivity.
  - reflexivity.
  - vm_compute. repeat constructor; eexists; reflexivity.
Defined.

(** C3. When the key set of every candidate file contains the reference
    key set, the whole standard output is two lines: [Found <N> keys in
    en.ts], [N] being the number of reference keys, and [All good! No
    missing keys found.]. *)
Theorem complete_candidates_output db ord fs text names :
  fs_read fs en_file = inr text →
  fs_listdir fs locales_dir = inr names →
  (∀ f, f ∈ candidates names →
        ∃ ks, key_set db fs f = Some ks ∧ extract_keys_text db text ⊆ ks) →
  stdout (run db ord fs).2
  = lit "Found " ++ lit (pretty (size (extract_keys_text db text)))
    ++ lit " keys in en.ts" ++ [10]
    ++ lit "All good! No missing keys found." ++ [10].
Proof.
  intros Hr Hl Hsup.
  assert (Forall (readable db fs) (candidates names)) as Hall.
  { apply Forall_forall. intros f Hf. destruct (Hsup f Hf) as (ks & Hks & _).
    by exists ks. }
  rewrite (run_ok db ord fs text names) by done. cbn [snd stdout].
  unfold build_report. rewrite record_loop_nil.
  - unfold found_text, report_text, all_good_text. by rewrite <- !(assoc_L (++)).
  - intros f Hf. destruct (Hsup f Hf) as (ks & Hks & Hsub).
    unfold missing_keys. rewrite Hks. by apply subseteq_empty_difference_L.
Qed.

Lemma complete_candidates_output_witness :
  stdout (run ascii_db elements_order fs_complete).2
  = lit "Found "
    ++ lit (pretty (size (extract_keys_text ascii_db (unlines ["a: 1"; "b: 2"; "c: 3"]))))
    ++ lit " keys in en.ts" ++ [10]
    ++ lit "All good! No missing keys found." ++ [10].
Proof.
  apply (complete_candidates_output ascii_db elements_order fs_complete
           (unlines ["a: 1"; "b: 2"; "c: 3"]) (lit <$> ["fr.ts"; "en.ts"])).
  - reflexivity.
  - reflexivity.
  - intros f Hf. vm_compute in Hf.
    apply list_elem_of_singleton in Hf as ->.
    eexists. split; [reflexivity|].
    apply (bool_decide_unpack _). by vm_compute.
Defined.

(** C4. When the report is not empty, the script prints after the first
    line, for each recorded file in the order of the report (the order in
    which the files were inserted, which is the order of the listing), a
    blank line, the header [Missing keys in <filename>:] and one line
    [ - <key>] per missing key, the keys of a file in strictly ascending
    lexicographic order whatever the order in which the set yields them.
    The missing keys [{zeta, alpha, mu}] are printed as [alpha], [mu],
    [zeta]. *)
Theorem report_rendering db ord fs v w :
  run db ord fs = (inr v, w) →
  missing_report v ≠ [] →
  stdout w = found_text (en_keys v) ++ concat (section_text ord <$> missing_report v)
  ∧ (∀ item, section_text ord item
             = [10] ++ lit "Missing keys in " ++ item.1 ++ lit ":" ++ [10]
               ++ concat ((λ key, lit " - " ++ key ++ [10]) <$> sorted ord item.2))
  ∧ (∀ m, StronglySorted str_lt (sorted ord m)
          ∧ sorted ord m ≡ₚ elements m
          ∧ ∀ ord', sorted ord' m = sorted ord m)
  ∧ (∀ names, fs_listdir fs locales_dir = inr names → NoDup names →
       (missing_report v).*1
       = filter (λ f, missing_keys db fs (en_keys v) f ≠ ∅) (candidates names))
  ∧ sorted ord {[ lit "zeta"; lit "alpha"; lit "mu" ]}
    = [lit "alpha"; lit "mu"; lit "zeta"]
  ∧ stdout (run db ord fs_sorting).2
    = unlines ["Found 4 keys in en.ts";
               ""; "Missing keys in ja.ts:"; " - Beta"; " - alpha"; " - mu"; " - zeta";
               ""; "Missing keys in it.ts:"; " - alpha"; " - mu"; " - zeta"].
Proof.
  intros Hrun Hne.
  apply run_inr_inv in Hrun as (text & names & Hr & Hl & Hall & -> & ->).
  cbn [en_keys missing_report stdout] in *. split_and!.
  - unfold report_text. by destruct (build_report _ _ _ _).
  - done.
  - intros m. split_and!.
    + apply sorted_strict.
    + apply sorted_Permutation.
    + intros ord'. apply sorted_order_irrelevant.
  - intros names' Hl' Hnd. assert (names' = names) as -> by congruence.
    by apply build_report_keys.
  - rewrite (sorted_order_irrelevant ord elements_order). by vm_compute.
  - rewrite (run_set_order db ord elements_order). by vm_compute.
Qed.

Lemma report_rendering_witness :
  ∃ v w,
    run ascii_db elements_order fs_sorting = (inr v, w)
    ∧ missing_report v ≠ []
    ∧ stdout w = found_text (en_keys v)
                 ++ concat (section_text elements_order <$> missing_report v).
Proof.
  destruct (run ascii_db elements_order fs_sorting) as [[e|v] w] eqn:Hrun.
  { exfalso. vm_compute in Hrun. discriminate. }
  assert (missing_report v ≠ []) as Hne.
  { vm_compute in Hrun. injection Hrun as <- <-. discriminate. }
  exists v, w. split; [reflexivity|]. split; [exact Hne|].
  apply (report_rendering ascii_db elements_order fs_sorting v w Hrun Hne).
Defined.

(** C10. When the reference file declares no key, then for all readable
    candidate files the report is empty and the script prints [Found 0
    keys in en.ts] and [All good! No missing keys found.]. *)
Theorem empty_reference db ord fs text names :
  fs_read fs en_file = inr text →
  extract_keys_text db text = ∅ →
  fs_listdir fs locales_dir = inr names →
  Forall (readable db fs) (candidates names) →
  ∃ v w,
    run db ord fs = (inr v, w)
    ∧ missing_report v = []
    ∧ stdout w = unlines ["Found 0 keys in en.ts"; "All good! No missing keys found."].
Proof.
  intros Hr Hempty Hl Hall. eexists _, _. split; [by apply run_ok|].
  cbn [missing_report stdout]. rewrite Hempty.
  assert (build_report db fs ∅ names = []) as ->; [|done].
  apply record_loop_nil. intros f _. unfold missing_keys.
  apply set_eq. intros k. rewrite elem_of_difference.
  split; [intros [Hk _]|intros Hk]; by apply not_elem_of_empty in Hk.
Qed.

Lemma empty_reference_witness :
  ∃ v w,
    run ascii_db elements_order fs_empty_reference = (inr v, w)
    ∧ missing_report v = []
    ∧ stdout w = unlines ["Found 0 keys in en.ts"; "All good! No missing keys found."].
Proof.
  apply (empty_reference ascii_db elements_order fs_empty_reference
           (unlines ["export default {"; "}"]) (lit <$> ["en.ts"; "fr.ts"])).
  - reflexivity.
  - by vm_compute.
  - reflexivity.
  - vm_compute. repeat constructor. eexists; reflexivity.
Defined.

(** C5, as the script has it.  A directory entry is scanned as a
    candidate if and only if its name ends with [.ts] and is not [en.ts];
    what kind of entry it is plays no part.  An entry whose name fails the
    test, be it a subdirectory, a file with another suffix such as
    [readme.md] or the reference file, is passed over: it is neither
    opened nor reported.  The files opened after the listing are
    candidates, in the order of the listing, and all of them when no
    access fails.  A subdirectory whose name passes the test is opened
    like a file: the run ends there with [IsADirectoryError]. *)
Theorem candidate_selection db ord fs :
  (∀ f, skipped f = false ↔ suffix (lit ".ts") f ∧ f ≠ lit "en.ts")
  ∧ skipped (lit "readme.md") = true
  ∧ skipped (lit "en.ts") = true
  ∧ (∀ f v w, skipped f = true → scan_body db fs f v w = (inr v, w))
  ∧ (∀ text names,
       fs_read fs en_file = inr text → fs_listdir fs locales_dir = inr names →
       ∃ scanned,
         calls (run db ord fs).2
         = [SysOpen en_file; SysListdir locales_dir] ++ (SysOpen ∘ path_of <$> scanned)
         ∧ scanned `prefix_of` candidates names
         ∧ (∀ f, ¬ is_candidate f → SysOpen (path_of f) ∉ (SysOpen ∘ path_of <$> scanned))
         ∧ (∀ v w, run db ord fs = (inr v, w) →
              scanned = candidates names
              ∧ ∀ f, is_Some (dict_get (missing_report v) f) → f ∈ candidates names))
  ∧ (∀ text names f,
       fs_read fs en_file = inr text → fs_listdir fs locales_dir = inr names →
       is_subdirectory fs f → ¬ is_candidate f →
       SysOpen (path_of f) ∉ calls (run db ord fs).2)
  ∧ (∀ text names1 f names2,
       fs_read fs en_file = inr text →
       fs_listdir fs locales_dir = inr (names1 ++ f :: names2) →
       Forall (readable db fs) (candidates names1) →
       is_candidate f → is_subdirectory fs f →
       (run db ord fs).1 = inl (OSError EISDIR)
       ∧ last (calls (run db ord fs).2) = Some (SysOpen (path_of f))).
Proof.
  assert (∀ text names,
       fs_read fs en_file = inr text → fs_listdir fs locales_dir = inr names →
       ∃ scanned,
         calls (run db ord fs).2
         = [SysOpen en_file; SysListdir locales_dir] ++ (SysOpen ∘ path_of <$> scanned)
         ∧ scanned `prefix_of` candidates names
         ∧ (∀ f, ¬ is_candidate f → SysOpen (path_of f) ∉ (SysOpen ∘ path_of <$> scanned))
         ∧ (∀ v w, run db ord fs = (inr v, w) →
              scanned = candidates names
              ∧ ∀ f, is_Some (dict_get (missing_report v) f) → f ∈ candidates names))
    as Hscan.
  { intros text names Hr Hl.
    assert (∀ l f, l `prefix_of` candidates names → ¬ is_candidate f →
                   SysOpen (path_of f) ∉ (SysOpen ∘ path_of <$> l)) as Hnot.
    { intros l f [k Hk] Hf (g & [= Heq] & Hg)%list_elem_of_fmap.
      apply path_of_inj in Heq as <-.
      assert (f ∈ candidates names) as Hin by (rewrite Hk, elem_of_app; by left).
      by apply list_elem_of_filter in Hin as [? _]. }
    destruct (run_cases db ord fs)
      as [e ? Heq|text' e ? ? Heq|text' n1 f n2 e ? Hl' ? ? ? Heq|text' names' ? Hl' ? Heq];
      try congruence.
    + assert (names = n1 ++ f :: n2) as -> by congruence.
      assert ((candidates n1 ++ [f]) `prefix_of` candidates (n1 ++ f :: n2)) as Hpre.
      { unfold candidates. rewrite filter_app, filter_cons, decide_True by done.
        exists (filter is_candidate n2). by rewrite <- (assoc_L (++)). }
      exists (candidates n1 ++ [f]). rewrite Heq. cbn [snd calls]. split_and!.
      * by rewrite fmap_app.
      * done.
      * intros g. by apply Hnot.
      * intros v w [=].
    + assert (names' = names) as -> by congruence.
      exists (candidates names). rewrite Heq. cbn [snd calls]. split_and!.
      * done.
      * done.
      * intros g. by apply Hnot.
      * intros v w [= <- <-]. split; [done|]. intros f.
        cbn [missing_report]. rewrite build_report_get.
        destruct (decide _) as [[Hin _]|_]; [done|]. by intros [? ?]. }
  split_and!.
  - intros f. apply skipped_candidate.
  - done.
  - done.
  - intros f v w Hs. apply scan_body_skip. by apply skipped_not_candidate.
  - exact Hscan.
  - intros text names f Hr Hl Hdir Hf.
    destruct (Hscan text names Hr Hl) as (scanned & -> & _ & Hnot & _).
    rewrite elem_of_app, !elem_of_cons. intros [[[= Heq]|[[=]|Hnil]]|Hin].
    + rewrite en_file_path in Heq. apply path_of_inj in Heq as ->.
      unfold is_subdirectory in Hdir. rewrite <- en_file_path in Hdir. congruence.
    + by apply elem_of_nil in Hnil.
    + by apply (Hnot f Hf).
  - intros text names1 f names2 Hr Hl Hall Hf Hdir.
    rewrite (run_candidate_fails db ord fs text names1 f names2 (OSError EISDIR))
      by done.
    split; [done|]. cbn [snd calls]. by rewrite (assoc_L (++)), last_snoc.
Qed.

(** C5 as it was put fails: it counts the subdirectories among the
    entries that are passed over, and the script does not look at the
    kind of an entry.  Here the listing holds a subdirectory [sub.ts].
    Its name passes the test, the script opens it, and the run ends with
    [IsADirectoryError] before [fr.ts] is looked at and any report is
    printed. *)
Lemma subdirectory_named_ts_is_opened :
  fs_listdir fs_subdirectory locales_dir = inr (lit <$> ["sub.ts"; "fr.ts"; "en.ts"])
  ∧ is_subdirectory fs_subdirectory (lit "sub.ts")
  ∧ skipped (lit "sub.ts") = false
  ∧ run ascii_db elements_order fs_subdirectory
    = (inl (OSError EISDIR),
       {| stdout := unlines ["Found 3 keys in en.ts"];
          calls := [SysOpen en_file; SysListdir locales_dir;
                    SysOpen (path_of (lit "sub.ts"))] |})
  ∧ ¬ skips_subdirectories ascii_db elements_order fs_subdirectory.
Proof.
  assert (run ascii_db elements_order fs_subdirectory
          = (inl (OSError EISDIR),
             {| stdout := unlines ["Found 3 keys in en.ts"];
                calls := [SysOpen en_file; SysListdir locales_dir;
                          SysOpen (path_of (lit "sub.ts"))] |})) as Hrun
    by by vm_compute.
  split_and!; try done.
  intros Hskip.
  apply (Hskip (lit <$> ["sub.ts"; "fr.ts"; "en.ts"]) (lit "sub.ts"));
    [done|by left|done|].
  rewrite Hrun. cbn [snd calls]. by do 2 right; left.
Qed.

(** C6. Every failure to access a file is fatal.  When the reference file
    or a candidate file cannot be read, or the directory cannot be listed,
    the run ends with the exception of the failing access.  That access
    is the last one made: the script does not go on to another file and
    does not try again; every access before it succeeded.  No report of
    missing keys is printed, not even a part of one: the output is empty
    or is the line that counts the reference keys. *)
Theorem access_failure_is_fatal db ord fs :
  ((∃ e, fs_read fs en_file = inl e)
   ∨ (∃ e, fs_listdir fs locales_dir = inl e)
   ∨ (∃ names f, fs_listdir fs locales_dir = inr names
                 ∧ f ∈ candidates names ∧ ¬ readable db fs f)) →
  ∃ e w earlier failed,
    run db ord fs = (inl e, w)
    ∧ calls w = earlier ++ [failed]
    ∧ call_error fs failed = Some e
    ∧ Forall (λ c, call_error fs c = None) earlier
    ∧ (stdout w = []
       ∨ ∃ text, fs_read fs en_file = inr text
                 ∧ stdout w = found_text (extract_keys_text db text)).
Proof.
  intros Hfail.
  destruct (run_cases db ord fs)
    as [e Hr Heq|text e Hr Hl Heq|text n1 f n2 e Hr Hl Hn1 Hf He Heq
        |text names Hr Hl Hall Heq].
  - exists e, {| stdout := []; calls := [SysOpen en_file] |}, [], (SysOpen en_file).
    split_and!; try done.
    + simpl. by rewrite Hr.
    + by left.
  - eexists e, _, [SysOpen en_file], (SysListdir locales_dir).
    split_and!; [exact Heq|done| | |].
    + simpl. by rewrite Hl.
    + repeat constructor. simpl. by rewrite Hr.
    + right. by exists text.
  - eexists e, _, _, (SysOpen (path_of f)).
    split_and!; [exact Heq|cbn [calls]; by rewrite (assoc_L (++))| | |].
    + simpl. by rewrite He.
    + apply Forall_app. split.
      * repeat constructor; simpl; by rewrite ?Hr, ?Hl.
      * apply Forall_fmap. eapply Forall_impl; [exact Hn1|].
        intros g [ks Hks]. simpl. unfold key_set in Hks.
        by destruct (fs_read fs (path_of g)).
    + right. by exists text.
  - exfalso. destruct Hfail as [[e He]|[[e He]|(names' & f & Hl' & Hf & Hnr)]];
      try congruence.
    assert (names' = names) as -> by congruence.
    rewrite Forall_forall in Hall. by apply Hnr, Hall.
Qed.

Lemma access_failure_is_fatal_witness :
  ∃ e w earlier failed,
    run ascii_db elements_order fs_unreadable = (inl e, w)
    ∧ calls w = earlier ++ [failed]
    ∧ call_error fs_unreadable failed = Some e
    ∧ Forall (λ c, call_error fs_unreadable c = None) earlier
    ∧ (stdout w = []
       ∨ ∃ text, fs_read fs_unreadable en_file = inr text
                 ∧ stdout w = found_text (extract_keys_text ascii_db text)).
Proof.
  apply (access_failure_is_fatal ascii_db elements_order fs_unreadable).
  right. right. exists (lit <$> ["fr.ts"; "de.ts"; "it.ts"]), (lit "de.ts").
  split; [reflexivity|]. split.
  - vm_compute. apply list_elem_of_further, list_elem_of_here.
  - intros [ks Hks]. vm_compute in Hks. discriminate.
Defined.

(** C7. The script is deterministic.  The output of a run is a function
    of the state of the file system and of the order in which the
    directory is listed; the one thing that may differ between two runs of
    the interpreter, the order in which its sets iterate, does not show:
    two runs print the same text, and end alike. *)
Theorem run_deterministic db fs ord1 ord2 :
  stdout (run db ord1 fs).2 = stdout (run db ord2 fs).2
  ∧ run db ord1 fs = run db ord2 fs.
Proof. by rewrite (run_set_order db ord1 ord2). Qed.

(** C8. The reference key set is computed once, before any candidate is
    processed, and is not changed afterwards: the scanning loop leaves
    [en_keys] as it found it, at the end of a run [en_keys] is the set
    extracted from the reference file, and the reference file is opened
    once, by the first call of the run. *)
Theorem reference_keys_fixed db ord fs :
  (∀ names v w v' w',
     for_each names (scan_body db fs) v w = (inr v', w') → en_keys v' = en_keys v)
  ∧ (∀ v w, run db ord fs = (inr v, w) →
       ∃ text, fs_read fs en_file = inr text ∧ en_keys v = extract_keys_text db text)
  ∧ (∃ rest, calls (run db ord fs).2 = SysOpen en_file :: rest
             ∧ SysOpen en_file ∉ rest).
Proof.
  split_and!.
  - intros names. induction names as [|f names IH]; intros v w v' w'; cbn [for_each].
    + by intros [= <- _].
    + unfold mbind, io_bind.
      destruct (scan_body db fs f v w) as [[e|v1] w1] eqn:Hbody; [done|].
      intros Hloop. rewrite (IH _ _ _ _ Hloop).
      revert Hbody. unfold scan_body. destruct (skipped f); [by intros [= <- _]|].
      unfold mbind, io_bind.
      destruct (extract_keys db fs _ w) as [[e|ks] w2]; [done|].
      by case_bool_decide; intros [= <- _].
  - intros v w (text & names & Hr & _ & _ & -> & _)%run_inr_inv. by exists text.
  - destruct (run_cases db ord fs)
      as [e ? Heq|text e ? ? Heq|text n1 f n2 e ? ? ? Hf ? Heq|text names ? ? ? Heq];
      rewrite Heq; cbn [snd calls app]; eexists; (split; [reflexivity|]).
    + apply not_elem_of_nil.
    + by intros [=]%list_elem_of_singleton.
    + rewrite not_elem_of_cons, not_elem_of_app. split_and!.
      * done.
      * apply reference_not_among_candidates.
      * intros Heq'%list_elem_of_singleton. symmetry in Heq'.
        by apply candidate_not_reference in Heq'.
    + rewrite not_elem_of_cons. split; [done|].
      apply reference_not_among_candidates.
Qed.

(** C9. The audit goes one way.  A key is reported for a file only when
    it is a reference key that the file lacks, so a key that a candidate
    has and the reference has not is in no report and on no key line of
    the output; and when the key set of a candidate grows, everything else
    being the same, the set reported for it can only shrink. *)
Theorem audit_one_directional db ord :
  (∀ fs v w f m k,
     run db ord fs = (inr v, w) → dict_get (missing_report v) f = Some m → k ∈ m →
     k ∈ en_keys v ∧ ∀ ks, key_set db fs f = Some ks → k ∉ ks)
  ∧ (∀ fs v w,
       run db ord fs = (inr v, w) →
       stdout w = found_text (en_keys v) ++ report_text ord (missing_report v)
       ∧ ∀ item k, item ∈ missing_report v → k ∈ sorted ord item.2 →
                   k ∈ en_keys v ∧ ∀ ks, key_set db fs item.1 = Some ks → k ∉ ks)
  ∧ (∀ (en ks ks' : gset (list N)), ks ⊆ ks' → en ∖ ks' ⊆ en ∖ ks)
  ∧ (∀ fs1 fs2 v1 w1 v2 w2 f,
       fs_read fs1 en_file = fs_read fs2 en_file →
       fs_listdir fs1 locales_dir = fs_listdir fs2 locales_dir →
       run db ord fs1 = (inr v1, w1) → run db ord fs2 = (inr v2, w2) →
       (∀ ks1 ks2, key_set db fs1 f = Some ks1 → key_set db fs2 f = Some ks2 →
                   ks1 ⊆ ks2) →
       ∀ m2, dict_get (missing_report v2) f = Some m2 →
             ∃ m1, dict_get (missing_report v1) f = Some m1 ∧ m2 ⊆ m1).
Proof.
  assert (∀ fs en f k, k ∈ missing_keys db fs en f →
            k ∈ en ∧ ∀ ks, key_set db fs f = Some ks → k ∉ ks) as Hmiss.
  { intros fs en f k. unfold missing_keys.
    intros [Hk Hnk]%elem_of_difference. split; [done|]. intros ks Hks.
    by rewrite Hks in Hnk. }
  assert (∀ (en ks ks' : gset (list N)), ks ⊆ ks' → en ∖ ks' ⊆ en ∖ ks) as Hmono.
  { intros en ks ks' Hsub k. rewrite !elem_of_difference.
    intros [Hk Hnk]. split; [done|]. intros Hin. by apply Hnk, Hsub. }
  split_and!.
  - intros fs v w f m k (text & names & _ & _ & _ & -> & _)%run_inr_inv.
    cbn [missing_report en_keys]. rewrite build_report_get.
    destruct (decide _); [|done]. intros [= <-]. apply Hmiss.
  - intros fs v w (text & names & _ & _ & _ & -> & ->)%run_inr_inv.
    cbn [missing_report en_keys stdout]. split; [done|].
    intros item k (_ & Hm & _)%build_report_items Hk%elem_of_sorted.
    rewrite Hm in Hk. by apply Hmiss.
  - done.
  - intros fs1 fs2 v1 w1 v2 w2 f Href Hdir
      (text1 & names1 & Hr1 & Hl1 & Hall1 & -> & _)%run_inr_inv
      (text2 & names2 & Hr2 & Hl2 & Hall2 & -> & _)%run_inr_inv Hgrow m2.
    assert (text2 = text1) as -> by congruence.
    assert (names2 = names1) as -> by congruence.
    cbn [missing_report]. rewrite !build_report_get.
    destruct (decide (f ∈ candidates names1 ∧ missing_keys db fs2 _ f ≠ ∅))
      as [[Hf Hne]|_]; [|done].
    intros [= <-].
    rewrite Forall_forall in Hall1, Hall2.
    destruct (Hall1 f Hf) as [ks1 Hks1], (Hall2 f Hf) as [ks2 Hks2].
    assert (missing_keys db fs2 (extract_keys_text db text1) f
            ⊆ missing_keys db fs1 (extract_keys_text db text1) f) as Hsub.
    { unfold missing_keys. rewrite Hks1, Hks2. apply Hmono. by apply Hgrow. }
    exists (missing_keys db fs1 (extract_keys_text db text1) f).
    split; [|done]. rewrite decide_True; [done|]. split; [done|].
    intros Hempty. apply Hne. apply set_eq. intros k. split.
    + intros Hk%Hsub. by rewrite Hempty in Hk.
    + by intros ?%not_elem_of_empty.
Qed.

(** * Further properties of the script *)

(** ** Lines and keys *)

Lemma word_not_space db c : uni_isword db c = true → uni_isspace c = false.
Proof.
  intros Hw. destruct (uni_isspace c) eqn:Hs; [|done].
  apply (space_not_word db) in Hs. congruence.
Qed.

Lemma lstrip_spaces ws s :
  Forall (λ c, uni_isspace c = true) ws → lstrip (ws ++ s) = lstrip s.
Proof. induction 1 as [|c ws Hc _ IH]; simpl; [done|]. by rewrite Hc. Qed.

Lemma lstrip_word db w s :
  word_run db w → lstrip (w ++ s) = w ++ s.
Proof.
  intros [Hne Hw]. destruct w as [|c w]; [done|].
  apply Forall_cons in Hw as [Hc _]. simpl.
  by rewrite (word_not_space db c Hc).
Qed.

Lemma declares_word_run db line w : declares db line w → word_run db w.
Proof. by intros [? _]. Qed.

(** X1. Every extracted key is a non-empty string of word characters:
    it holds no white space, no colon and no line feed, so that a key line
    of the report is one line. *)
Theorem extracted_keys_are_words db text k :
  k ∈ extract_keys_text db text →
  k ≠ []
  ∧ Forall (λ c, uni_isword db c = true) k
  ∧ Forall (λ c, uni_isspace c = false) k
  ∧ (58 ∉ k) ∧ (10 ∉ k).
Proof.
  intros (line & _ & [Hne Hw] & _)%elem_of_extract_keys_text.
  split_and!; try done.
  - eapply Forall_impl; [exact Hw|]. apply word_not_space.
  - intros Hin. rewrite Forall_forall in Hw. by apply Hw in Hin.
  - intros Hin. rewrite Forall_forall in Hw. by apply Hw in Hin.
Qed.

Lemma extracted_keys_are_words_witness :
  lit "123abc" ≠ []
  ∧ Forall (λ c, uni_isword ascii_db c = true) (lit "123abc")
  ∧ Forall (λ c, uni_isspace c = false) (lit "123abc")
  ∧ (58 ∉ lit "123abc") ∧ (10 ∉ lit "123abc").
Proof.
  apply (extracted_keys_are_words ascii_db (unlines example_lines) (lit "123abc")).
  apply (bool_decide_unpack _). by vm_compute.
Defined.

(** X2. The indentation of a line and what follows the colon play no
    part: a line made of white space, a word run, a colon and anything at
    all adds the word run to the keys. *)
Theorem indentation_and_value_ignored db keys ws w rest :
  Forall (λ c, uni_isspace c = true) ws →
  word_run db w →
  extract_line db keys (ws ++ w ++ 58 :: rest) = {[ w ]} ∪ keys.
Proof.
  intros Hws Hw. rewrite extract_line_key.
  assert (key_of_line db (ws ++ w ++ 58 :: rest) = Some w) as ->; [|done].
  apply key_of_line_declares. split; [done|]. exists rest.
  by rewrite lstrip_spaces, (lstrip_word db).
Qed.

Lemma indentation_and_value_ignored_witness :
  extract_line ascii_db ∅ (lit "   " ++ lit "title" ++ 58 :: lit " 'x: y', // z")
  = {[ lit "title" ]} ∪ ∅.
Proof.
  apply (indentation_and_value_ignored ascii_db ∅ (lit "   ") (lit "title")
           (lit " 'x: y', // z")).
  - by repeat constructor.
  - split; [done|]. by repeat constructor.
Defined.

(** X3. A key is looked for at the start of the line only.  A blank line
    adds nothing; a line whose first character after the white space is
    not a word character (a quote, a brace, a comment) adds nothing,
    whatever comes later on the line; and neither does a line where
    something else than a colon follows the first word run (a blank, a
    hyphen). *)
Theorem key_only_at_line_start db keys :
  (∀ line, lstrip line = [] → extract_line db keys line = keys)
  ∧ (∀ line c rest,
       lstrip line = c :: rest → uni_isword db c = false →
       extract_line db keys line = keys)
  ∧ (∀ ws w c rest,
       Forall (λ x, uni_isspace x = true) ws → word_run db w →
       uni_isword db c = false → c ≠ 58 →
       extract_line db keys (ws ++ w ++ c :: rest) = keys).
Proof.
  split_and!.
  - intros line Hl. rewrite extract_line_key. unfold key_of_line. by rewrite Hl.
  - intros line c rest Hl Hc. rewrite extract_line_key. unfold key_of_line.
    rewrite Hl. simpl. by rewrite Hc.
  - intros ws w c rest Hws Hw Hc Hne. rewrite extract_line_key. unfold key_of_line.
    rewrite lstrip_spaces, (lstrip_word db) by done.
    destruct Hw as [Hnil Hw]. rewrite take_word_app by done.
    destruct w as [|x w]; [done|]. by colon_cases c.
Qed.

(** ** Line terminators *)

Lemma translate_newlines_clean l rest :
  13 ∉ l → translate_newlines (l ++ rest) = l ++ translate_newlines rest.
Proof.
  induction l as [|c l IH]; [done|].
  rewrite not_elem_of_cons. intros [Hc Hl]. cbn [app translate_newlines].
  destruct (N.eqb_spec c 13) as [->|_]; [done|]. by rewrite IH.
Qed.

Lemma translate_newlines_cr rest :
  head rest ≠ Some 10 → translate_newlines (13 :: rest) = 10 :: translate_newlines rest.
Proof.
  intros Hhd. cbn [translate_newlines]. change (13 =? 13) with true. cbn match.
  destruct rest as [|c rest]; [done|].
  destruct (N.eqb_spec c 10) as [->|_]; [done|]. done.
Qed.

Lemma translate_newlines_crlf rest :
  translate_newlines (13 :: 10 :: rest) = 10 :: translate_newlines rest.
Proof. done. Qed.

Lemma translate_newlines_lf rest :
  translate_newlines (10 :: rest) = 10 :: translate_newlines rest.
Proof. done. Qed.

Lemma join_lines_cons eol l lines :
  join_lines eol (l :: lines) = l ++ eol ++ join_lines eol lines.
Proof. unfold join_lines. simpl. by rewrite <- (assoc_L (++)). Qed.

Lemma head_join_lines_cr lines :
  Forall plain_line lines → head (join_lines [13] lines) ≠ Some 10.
Proof.
  destruct 1 as [|l ls [Hl _] _]; [done|]. rewrite join_lines_cons.
  destruct l as [|c l]; [done|]. simpl. intros [= ->]. apply Hl. by left.
Qed.

(** Whatever the terminator, the file is read as if its lines ended with
    a line feed. *)
Lemma translate_join_lines lines :
  Forall plain_line lines →
  translate_newlines (join_lines [10] lines) = join_lines [10] lines
  ∧ translate_newlines (join_lines [13; 10] lines) = join_lines [10] lines
  ∧ translate_newlines (join_lines [13] lines) = join_lines [10] lines.
Proof.
  induction 1 as [|l lines [Hlf Hcr] Hall (IH1 & IH2 & IH3)]; [done|].
  rewrite !join_lines_cons. cbn [app]. split_and!.
  - by rewrite translate_newlines_clean, translate_newlines_lf, IH1.
  - by rewrite translate_newlines_clean, translate_newlines_crlf, IH2.
  - rewrite translate_newlines_clean, translate_newlines_cr, IH3; [done| |done].
    by apply head_join_lines_cr.
Qed.

Lemma split_lines_line cur l rest :
  10 ∉ l → split_lines cur (l ++ 10 :: rest) = (cur ++ l ++ [10]) :: split_lines [] rest.
Proof.
  revert cur. induction l as [|c l IH]; intros cur.
  - done.
  - rewrite not_elem_of_cons. intros [Hc Hl]. cbn [app split_lines].
    destruct (N.eqb_spec c 10) as [->|_]; [done|].
    rewrite IH by done. by rewrite <- (assoc_L (++)).
Qed.

Lemma split_join_lines lines :
  Forall plain_line lines →
  split_lines [] (join_lines [10] lines) = (λ l, l ++ [10]) <$> lines.
Proof.
  induction 1 as [|l lines [Hlf _] _ IH]; [done|].
  rewrite join_lines_cons. cbn [app]. rewrite split_lines_line by done.
  by rewrite IH.
Qed.

(** X4. Reading back what was written: a text made of lines that each
    end with a line feed (the lines themselves holding neither CR nor LF)
    is read as these very lines, each with its line feed, and the key set
    of the file is the one its lines give. *)
Theorem file_lines_of_joined_lines db lines :
  Forall plain_line lines →
  file_lines (join_lines [10] lines) = (λ l, l ++ [10]) <$> lines
  ∧ extract_keys_text db (join_lines [10] lines)
    = foldl (extract_line db) ∅ ((λ l, l ++ [10]) <$> lines).
Proof.
  intros Hall. unfold extract_keys_text, file_lines.
  destruct (translate_join_lines lines Hall) as (-> & _ & _).
  by rewrite split_join_lines.
Qed.

Lemma file_lines_of_joined_lines_witness :
  file_lines (join_lines [10] [lit "a: 1"; []; lit "  b: 2"])
  = (λ l, l ++ [10]) <$> [lit "a: 1"; []; lit "  b: 2"]
  ∧ extract_keys_text ascii_db (join_lines [10] [lit "a: 1"; []; lit "  b: 2"])
    = foldl (extract_line ascii_db) ∅ ((λ l, l ++ [10]) <$> [lit "a: 1"; []; lit "  b: 2"]).
Proof.
  apply (file_lines_of_joined_lines ascii_db [lit "a: 1"; []; lit "  b: 2"]).
  repeat constructor; by apply (bool_decide_unpack _).
Defined.

(** X5. The line terminators of a file do not show in its keys: the
    same lines ended by CR LF, by CR or by LF give the same key set. *)
Theorem keys_independent_of_line_endings db lines :
  Forall plain_line lines →
  extract_keys_text db (join_lines [13; 10] lines)
  = extract_keys_text db (join_lines [10] lines)
  ∧ extract_keys_text db (join_lines [13] lines)
    = extract_keys_text db (join_lines [10] lines).
Proof.
  intros Hall. unfold extract_keys_text, file_lines.
  destruct (translate_join_lines lines Hall) as (-> & -> & ->). done.
Qed.

Lemma keys_independent_of_line_endings_witness :
  extract_keys_text ascii_db (join_lines [13; 10] [lit "a: 1"; []; lit "  b: 2"])
  = extract_keys_text ascii_db (join_lines [10] [lit "a: 1"; []; lit "  b: 2"])
  ∧ extract_keys_text ascii_db (join_lines [13] [lit "a: 1"; []; lit "  b: 2"])
    = extract_keys_text ascii_db (join_lines [10] [lit "a: 1"; []; lit "  b: 2"]).
Proof.
  apply (keys_independent_of_line_endings ascii_db [lit "a: 1"; []; lit "  b: 2"]).
  repeat constructor; by apply (bool_decide_unpack _).
Defined.

(** ** Keys as a set *)

Lemma extract_lines_start db lines keys :
  foldl (extract_line db) keys lines = foldl (extract_line db) ∅ lines ∪ keys.
Proof.
  apply set_eq. intros w. rewrite elem_of_union, !elem_of_extract_lines.
  split.
  - intros [?|?]; [by right|by left; right].
  - intros [[Hin|?]|?]; [by apply not_elem_of_empty in Hin|by right|by left].
Qed.

(** X6. The keys of a file are a set built line by line: the keys of two
    runs of lines put together are the union of the keys of each, and
    neither the order of the lines nor a line occurring again changes the
    result. *)
Theorem keys_of_lines_as_a_set db :
  (∀ lines1 lines2,
     foldl (extract_line db) ∅ (lines1 ++ lines2)
     = foldl (extract_line db) ∅ lines1 ∪ foldl (extract_line db) ∅ lines2)
  ∧ (∀ lines1 lines2 : list (list N),
       (∀ line, line ∈ lines1 ↔ line ∈ lines2) →
       foldl (extract_line db) ∅ lines1 = foldl (extract_line db) ∅ lines2).
Proof.
  split.
  - intros lines1 lines2. rewrite foldl_app, extract_lines_start.
    apply set_eq. intros w. rewrite !elem_of_union. tauto.
  - intros lines1 lines2 Hsame. apply set_eq. intros w.
    rewrite !elem_of_extract_lines. split.
    + intros [?|(line & Hin & Hd)]; [by left|]. right. exists line.
      split; [by apply Hsame|done].
    + intros [?|(line & Hin & Hd)]; [by left|]. right. exists line.
      split; [by apply Hsame|done].
Qed.

Lemma size_extract_lines db lines keys :
  (size (foldl (extract_line db) keys lines) ≤ size keys + length lines)%nat.
Proof.
  revert keys. induction lines as [|l lines IH]; intros keys; simpl; [lia|].
  etrans; [apply IH|]. rewrite extract_line_key.
  destruct (key_of_line db l) as [w|]; [|lia].
  rewrite size_union_alt, size_singleton.
  assert (size (keys ∖ {[w]}) ≤ size keys)%nat; [|lia].
  apply subseteq_size. intros k. rewrite elem_of_difference. tauto.
Qed.

(** X7. The number that the first line of the output announces counts
    distinct keys: it is at most the number of lines of the reference
    file, and a file without lines has no key. *)
Theorem key_count_at_most_line_count db text :
  (size (extract_keys_text db text) ≤ length (file_lines text))%nat
  ∧ (file_lines text = [] → extract_keys_text db text = ∅).
Proof.
  split.
  - unfold extract_keys_text.
    etrans; [apply size_extract_lines|]. by rewrite size_empty.
  - unfold extract_keys_text. by intros ->.
Qed.

(** ** The report *)

Lemma dict_set_keys_present (d : list (list N * gset (list N))) k v :
  k ∈ d.*1 → (dict_set d k v).*1 = d.*1.
Proof.
  induction d as [|[k0 v0] d IH]; cbn [dict_set].
  - by intros ?%elem_of_nil.
  - destruct (decide (k0 = k)) as [->|Hne]; [done|].
    rewrite !fmap_cons, elem_of_cons. cbn [fst].
    intros [->|Hin]; [done|]. by rewrite IH.
Qed.

Lemma dict_set_keys_NoDup (d : list (list N * gset (list N))) k v :
  NoDup d.*1 → NoDup (dict_set d k v).*1.
Proof.
  intros Hnd. destruct (decide (k ∈ d.*1)) as [Hin|Hout].
  - by rewrite dict_set_keys_present.
  - rewrite dict_set_fresh, fmap_app by done. apply NoDup_app. split_and!.
    + done.
    + intros x Hx ->%list_elem_of_singleton. done.
    + apply NoDup_singleton.
Qed.

Lemma record_loop_NoDup db fs en cands d :
  NoDup d.*1 → NoDup (foldl (record_missing db fs en) d cands).*1.
Proof.
  revert d. induction cands as [|g cands IH]; intros d Hnd; simpl; [done|].
  apply IH. unfold record_missing. destruct (decide _); [done|].
  by apply dict_set_keys_NoDup.
Qed.

Lemma dict_get_NoDup (d : list (list N * gset (list N))) k v :
  NoDup d.*1 → (k, v) ∈ d → dict_get d k = Some v.
Proof.
  induction d as [|[k0 v0] d IH]; simpl.
  - by intros _ ?%elem_of_nil.
  - rewrite NoDup_cons, elem_of_cons. intros [Hk0 Hnd] [[= -> ->]|Hin].
    + by rewrite decide_True.
    + rewrite decide_False; [by apply IH|]. intros ->. apply Hk0.
      apply list_elem_of_fmap. by exists (k, v).
Qed.

(** X8. The report of a run that returns is well formed: no file name
    has two entries; every entry is a candidate file, found again under
    its name, with a set of reference keys that is not empty, so that no
    header is printed without a key line under it. *)
Theorem report_well_formed db ord fs v w :
  run db ord fs = (inr v, w) →
  NoDup (missing_report v).*1
  ∧ ∀ item, item ∈ missing_report v →
      is_candidate item.1
      ∧ dict_get (missing_report v) item.1 = Some item.2
      ∧ item.2 ≠ ∅ ∧ item.2 ⊆ en_keys v
      ∧ sorted ord item.2 ≠ [].
Proof.
  intros (text & names & _ & _ & _ & -> & _)%run_inr_inv. cbn [missing_report en_keys].
  assert (NoDup (build_report db fs (extract_keys_text db text) names).*1) as Hnd.
  { apply record_loop_NoDup. constructor. }
  split; [done|]. intros [f m] Hin.
  destruct (build_report_items _ _ _ _ _ Hin) as (Hf & Hm & Hne). simpl in *.
  split_and!.
  - by apply list_elem_of_filter in Hf as [? _].
  - by apply dict_get_NoDup.
  - done.
  - rewrite Hm. unfold missing_keys. intros k. rewrite elem_of_difference. tauto.
  - intros Hnil. apply Hne. apply set_eq. intros k.
    rewrite <- (elem_of_sorted ord), Hnil. split.
    + by intros ?%elem_of_nil.
    + by intros ?%not_elem_of_empty.
Qed.

Lemma report_well_formed_witness :
  ∃ v w,
    run ascii_db elements_order fs_sorting = (inr v, w)
    ∧ NoDup (missing_report v).*1
    ∧ ∀ item, item ∈ missing_report v →
        is_candidate item.1
        ∧ dict_get (missing_report v) item.1 = Some item.2
        ∧ item.2 ≠ ∅ ∧ item.2 ⊆ en_keys v
        ∧ sorted elements_order item.2 ≠ [].
Proof.
  destruct (run ascii_db elements_order fs_sorting) as [[e|v] w] eqn:Hrun.
  { exfalso. vm_compute in Hrun. discriminate. }
  exists v, w. split; [reflexivity|].
  apply (report_well_formed ascii_db elements_order fs_sorting v w Hrun).
Defined.

(** X9. The count of the reference keys is printed before anything else
    is looked at.  Once the reference file has been read, the output of
    the run begins with that line, also when the listing or a candidate
    fails afterwards; when the reference file cannot be read, nothing is
    printed and the directory is not listed. *)
Theorem count_line_comes_first db ord fs :
  (∀ text, fs_read fs en_file = inr text →
     found_text (extract_keys_text db text) `prefix_of` stdout (run db ord fs).2)
  ∧ (∀ e, fs_read fs en_file = inl e →
       stdout (run db ord fs).2 = [] ∧ calls (run db ord fs).2 = [SysOpen en_file]).
Proof.
  split.
  - intros text Hr.
    destruct (run_cases db ord fs)
      as [e ? Heq|text' e ? ? Heq|text' n1 f n2 e ? ? ? ? ? Heq|text' names ? ? ? Heq];
      rewrite Heq; cbn [snd stdout]; try congruence;
      assert (text' = text) as -> by congruence.
    + done.
    + done.
    + by eexists.
  - intros e Hr. by rewrite (run_reference_fails db ord fs e).
Qed.

(** ** What a run depends on *)

Lemma scan_body_ext db fs1 fs2 f v w :
  (is_candidate f → fs_read fs1 (path_of f) = fs_read fs2 (path_of f)) →
  scan_body db fs1 f v w = scan_body db fs2 f v w.
Proof.
  intros Hsame. unfold scan_body. destruct (skipped f) eqn:Hs; [done|].
  apply skipped_candidate in Hs.
  unfold extract_keys, open_read. fold (path_of f). by rewrite (Hsame Hs).
Qed.

Lemma scan_loop_ext db fs1 fs2 names v w :
  (∀ f, f ∈ candidates names → fs_read fs1 (path_of f) = fs_read fs2 (path_of f)) →
  for_each names (scan_body db fs1) v w = for_each names (scan_body db fs2) v w.
Proof.
  revert v w. induction names as [|f names IH]; intros v w Hsame; [done|].
  cbn [for_each]. unfold mbind, io_bind.
  rewrite (scan_body_ext db fs1 fs2).
  - destruct (scan_body db fs2 f v w) as [[e|v'] w']; [done|].
    apply IH. intros g Hg. apply Hsame.
    rewrite candidates_cons. destruct (decide _); [by right|done].
  - intros Hf. apply Hsame. rewrite candidates_cons, decide_True by done. by left.
Qed.

Lemma io_bind_ext {A B} (m1 m2 : io A) (f1 f2 : A → io B) w :
  m1 w = m2 w →
  (∀ x w', m1 w = (inr x, w') → f1 x w' = f2 x w') →
  (m1 ≫= f1) w = (m2 ≫= f2) w.
Proof.
  intros Hm Hf. unfold mbind, io_bind. rewrite <- Hm.
  destruct (m1 w) as [[e|x] w']; [done|]. by apply Hf.
Qed.

(** X10. A run depends on the file system only through the reference
    file, the listing of the directory and the candidate files of the
    listing.  Two file systems that agree on these give the same run,
    whatever else they hold: files of the directory with another suffix,
    files that the listing does not name. *)
Theorem run_reads_only_locale_files db ord fs1 fs2 :
  fs_read fs1 en_file = fs_read fs2 en_file →
  fs_listdir fs1 locales_dir = fs_listdir fs2 locales_dir →
  (∀ names f, fs_listdir fs1 locales_dir = inr names → f ∈ candidates names →
              fs_read fs1 (path_of f) = fs_read fs2 (path_of f)) →
  run db ord fs1 = run db ord fs2.
Proof.
  intros Href Hdir Hcand. unfold run, main.
  apply io_bind_ext.
  { unfold extract_keys, open_read. by rewrite Href. }
  intros keys w1 _. apply io_bind_ext; [done|].
  intros _ w2 _. apply io_bind_ext.
  { unfold os_listdir. by rewrite Hdir. }
  intros names w3 Hlist. apply io_bind_ext; [|done].
  apply scan_loop_ext. intros f. apply Hcand.
  revert Hlist. unfold os_listdir, syscall_result.
  destruct (fs_listdir fs1 locales_dir); by intros [= <- _].
Qed.

Lemma run_reads_only_locale_files_witness :
  run ascii_db elements_order fs_missing_b
  = run ascii_db elements_order fs_missing_b_variant.
Proof.
  apply (run_reads_only_locale_files ascii_db elements_order
           fs_missing_b fs_missing_b_variant).
  - reflexivity.
  - reflexivity.
  - intros names f [= <-] Hf. vm_compute in Hf.
    apply elem_of_cons in Hf as [->|Hf]; [reflexivity|].
    apply list_elem_of_singleton in Hf as ->. reflexivity.
Defined.

(** X11. A candidate file without any key, an empty file for one, is
    reported with every key of the reference, as long as there is one. *)
Theorem keyless_candidate_misses_all db ord fs text names f :
  fs_read fs en_file = inr text →
  fs_listdir fs locales_dir = inr names →
  Forall (readable db fs) (candidates names) →
  f ∈ candidates names →
  key_set db fs f = Some ∅ →
  extract_keys_text db text ≠ ∅ →
  ∃ v w,
    run db ord fs = (inr v, w)
    ∧ dict_get (missing_report v) f = Some (en_keys v)
    ∧ (f, en_keys v) ∈ missing_report v.
Proof.
  intros Hr Hl Hall Hf Hks Hne. eexists _, _. split; [by apply run_ok|].
  cbn [missing_report en_keys].
  assert (missing_keys db fs (extract_keys_text db text) f = extract_keys_text db text)
    as Hm.
  { unfold missing_keys. rewrite Hks. simpl. apply difference_empty_L. }
  assert (dict_get (build_report db fs (extract_keys_text db text) names) f
          = Some (extract_keys_text db text)) as Hget.
  { rewrite build_report_get, Hm. by rewrite decide_True. }
  split; [done|]. clear -Hget.
  induction (build_report _ _ _ _) as [|[k0 v0] d IH]; simpl in *; [done|].
  destruct (decide (k0 = f)) as [->|_].
  - injection Hget as ->. by left.
  - right. by apply IH.
Qed.

Lemma keyless_candidate_misses_all_witness :
  ∃ v w,
    run ascii_db elements_order fs_empty_candidate = (inr v, w)
    ∧ dict_get (missing_report v) (lit "ja.ts") = Some (en_keys v)
    ∧ (lit "ja.ts", en_keys v) ∈ missing_report v.
Proof.
  apply (keyless_candidate_misses_all ascii_db elements_order fs_empty_candidate
           (unlines ["a: 1"; "b: 2"]) (lit <$> ["ja.ts"; "en.ts"]) (lit "ja.ts")).
  - reflexivity.
  - reflexivity.
  - vm_compute. repeat constructor. eexists; reflexivity.
  - vm_compute. apply list_elem_of_here.
  - by vm_compute.
  - apply (bool_decide_unpack _). by vm_compute.
Defined.

(** X12. Where the files are opened.  Different names of the listing are
    opened under different paths; a name that does not begin with a slash
    is opened inside the directory of the locales, a name that begins with
    one is opened as it stands; and no candidate is opened under the path
    of the reference file. *)
Theorem paths_of_entries :
  (∀ f g, path_of f = path_of g → f = g)
  ∧ (∀ f, head f ≠ Some 47 → path_of f = lit "../locales/" ++ f)
  ∧ (∀ f, head f = Some 47 → path_of f = f)
  ∧ (∀ f, is_candidate f → path_of f ≠ en_file).
Proof.
  split_and!.
  - apply path_of_inj.
  - intros f Hf. destruct (path_of_cases f) as [[_ Hs]|[-> _]]; [|done].
    destruct f; [done|]. simpl in *. congruence.
  - intros f Hf. destruct (path_of_cases f) as [[-> _]|[_ Hs]]; [done|].
    destruct f; [done|]. simpl in *. congruence.
  - intros f Hf Heq. apply (candidate_not_reference f Hf). by rewrite Heq.
Qed.

Lemma NoDup_opens (l : list (list N)) :
  NoDup l → NoDup (SysOpen ∘ path_of <$> l).
Proof.
  apply NoDup_fmap_2. intros f g [= Heq]. by apply path_of_inj.
Qed.

(** X13. No access is made twice.  When the listing names no entry
    twice, the calls of a run are all different: the reference file is
    opened once, the directory is listed once and every candidate is
    opened at most once, whether the run returns or fails. *)
Theorem no_access_twice db ord fs :
  (∀ names, fs_listdir fs locales_dir = inr names → NoDup names) →
  NoDup (calls (run db ord fs).2).
Proof.
  intros Hnd.
  destruct (run_cases db ord fs)
    as [e ? Heq|text e ? ? Heq|text n1 f n2 e ? Hl ? Hf ? Heq|text names ? Hl ? Heq];
    rewrite Heq; cbn [snd calls app].
  - apply NoDup_singleton.
  - constructor; [|apply NoDup_singleton].
    by intros [=]%list_elem_of_singleton.
  - apply Hnd in Hl. apply NoDup_app in Hl as (Hn1 & Hfresh & Hn2).
    assert (NoDup (n1 ++ [f])) as Hpre.
    { apply NoDup_app. split_and!; [done| |apply NoDup_singleton].
      intros x Hx ->%list_elem_of_singleton. apply (Hfresh f Hx). by left. }
    assert (candidates n1 ++ [f] = candidates (n1 ++ [f])) as Hc.
    { unfold candidates. by rewrite filter_app, filter_cons, decide_True, filter_nil. }
    replace ((SysOpen ∘ path_of <$> candidates n1) ++ [SysOpen (path_of f)])
      with (SysOpen ∘ path_of <$> candidates (n1 ++ [f]))
      by (by rewrite <- Hc, fmap_app).
    constructor; [|constructor].
    + rewrite not_elem_of_cons. split; [done|]. apply reference_not_among_candidates.
    + by intros (g & [=] & _)%list_elem_of_fmap.
    + by apply NoDup_opens, NoDup_filter.
  - apply Hnd in Hl. constructor; [|constructor].
    + rewrite not_elem_of_cons. split; [done|]. apply reference_not_among_candidates.
    + by intros (g & [=] & _)%list_elem_of_fmap.
    + by apply NoDup_opens, NoDup_filter.
Qed.

Lemma no_access_twice_witness :
  NoDup (calls (run ascii_db elements_order fs_unreadable).2).
Proof.
  apply (no_access_twice ascii_db elements_order fs_unreadable).
  intros names [= <-]. apply (bool_decide_unpack _). by vm_compute.
Defined.
